(** * generate_tree.py: the directory walk, the ranking and the report

    A shallow embedding of [src/generate_tree.py].  Python [str] values are
    kept as their UTF-8 bytes ([string]); byte-wise comparison of UTF-8
    strings is code-point comparison, which is what Python's [<] on [str]
    does.  [pathlib] is modelled for POSIX paths. *)

From stdpp Require Import base list strings gmap sorting pretty.
From Stdlib Require Import Ascii Permutation.

(** ** Strings *)

(** [sep.join(l)] *)
Fixpoint join (sep : string) (l : list string) : string :=
  match l with
  | [] => ""
  | [x] => x
  | x :: l' => x +:+ sep +:+ join sep l'
  end.

(** The line feed, ["\n"] in the source *)
Definition nl : string := String "010"%char "".

(** [s * n] *)
Fixpoint str_mul (s : string) (n : nat) : string :=
  match n with
  | 0 => ""
  | S n' => s +:+ str_mul s n'
  end.

(** Groups a little-endian digit list in threes, separated by [","]. *)
Fixpoint group3 (ds : list ascii) : list ascii :=
  match ds with
  | d1 :: d2 :: d3 :: ((_ :: _) as ds') => d1 :: d2 :: d3 :: ","%char :: group3 ds'
  | _ => ds
  end.

(** [f"{n}"] for a non-negative [int] *)
Definition format_int (n : nat) : string := pretty n.

(** [f"{n:,}"] for a non-negative [int] *)
Definition format_thousands (n : nat) : string :=
  String.string_of_list_ascii
    (reverse (group3 (reverse (String.list_ascii_of_string (pretty n))))).

(** [str.lower] on ASCII letters; other bytes are left alone.  The walk is
    parametrised by the case mapping, this instance is the one used to run
    it. *)
Definition ascii_lower_char (c : ascii) : ascii :=
  let n := Ascii.nat_of_ascii c in
  if (65 <=? n) && (n <=? 90) then Ascii.ascii_of_nat (n + 32) else c.

Fixpoint ascii_lower (s : string) : string :=
  match s with
  | EmptyString => EmptyString
  | String c s' => String (ascii_lower_char c) (ascii_lower s')
  end.

(** ** pathlib *)

(** A pure POSIX path: whether it has the root anchor [/], and its
    components.  [Path(".")] has no component. *)
Record Path := mkPath { anchor : bool; parts : list string }.

#[global] Instance Path_eq_dec : EqDecision Path.
Proof. solve_decision. Defined.

(** [p.name] *)
Definition name (p : Path) : string := default "" (last (parts p)).

(** [p / child] for a single component [child] *)
Definition joinpath (p : Path) (child : string) : Path :=
  mkPath (anchor p) (parts p ++ [child]).

(** [str(p)] *)
Definition str (p : Path) : string :=
  if anchor p then "/" +:+ join "/" (parts p)
  else match parts p with
       | [] => "."
       | _ => join "/" (parts p)
       end.

(** [p.is_absolute()] *)
Definition is_absolute (p : Path) : bool := anchor p.

(** [drop_prefix l k]: [Some r] when [l = k ++ r] *)
Fixpoint drop_prefix (l k : list string) {struct k} : option (list string) :=
  match k, l with
  | [], _ => Some l
  | y :: k', x :: l' => if decide (x = y) then drop_prefix l' k' else None
  | _ :: _, [] => None
  end.

(** [p.relative_to(other)]; [None] is [ValueError]. *)
Definition relative_to (p other : Path) : option Path :=
  if decide (anchor p = anchor other) then
    mkPath false <$> drop_prefix (parts p) (parts other)
  else None.

(** ** sorted / list.sort *)

(** Python's sort is stable, and a stable sort is determined by its input
    and its order; it is run here as an insertion sort.  [le x y] reads
    "x may stay before y". *)
Section Sort.
Context {A : Type} (le : A → A → bool).

Fixpoint insert_sorted (x : A) (l : list A) : list A :=
  match l with
  | [] => [x]
  | y :: l' => if le x y then x :: l else y :: insert_sorted x l'
  end.

Fixpoint stable_sort (l : list A) : list A :=
  match l with
  | [] => []
  | x :: l' => insert_sorted x (stable_sort l')
  end.
End Sort.

(** Order of the keys [(x.is_file(), x.name.lower())]: tuples compare
    lexicographically, [False < True], strings by code point. *)
Definition key_le (k1 k2 : bool * string) : bool :=
  match k1.1, k2.1 with
  | false, true => true
  | true, false => false
  | _, _ => String.leb k1.2 k2.2
  end.

(** [sorted(l, key=key)] *)
Definition sorted {A} (key : A → bool * string) (l : list A) : list A :=
  stable_sort (λ x y, key_le (key x) (key y)) l.

(** [l.sort(key=key, reverse=True)] for an integer key: descending, and
    still stable. *)
Definition sort_reverse {A} (key : A → nat) (l : list A) : list A :=
  stable_sort (λ x y, key y <=? key x) l.

(** [enumerate(l)] *)
Definition enumerate {A} (l : list A) : list (nat * A) := imap (λ i x, (i, x)) l.

(** ** The file system and the interpreter's outcomes *)

(** What [stat] says of a path, as far as [is_file] and [is_dir] look:
    anything else (a socket, a broken symbolic link, a missing entry) is
    [Other]. *)
Inductive Kind := RegularFile | Directory | Other.

#[global] Instance Kind_eq_dec : EqDecision Kind.
Proof. solve_decision. Defined.

(** The file system the run observes.
    - [listdir p]: the names [os.listdir] returns for [p], [None] when
      listing [p], or looking at its children for the sort, raises
      [PermissionError]; the walk only lists its root, which [main] takes
      to be the current directory, and entries that are directories, and
      no other error of a listing is modelled;
    - [kind p]: the kind of the entry at [p], links followed;
    - [read_text p]: the characters [f.read()] returns once [p] is opened
      with [errors='ignore'] (one number per decoded character), [None]
      when [open] or [read] raises. *)
Record FS := mkFS {
  listdir : Path → option (list string);
  kind : Path → Kind;
  read_text : Path → option (list N)
}.

(** [p.is_file()] *)
Definition is_file (fs : FS) (p : Path) : bool := bool_decide (kind fs p = RegularFile).

(** [p.is_dir()] *)
Definition is_dir (fs : FS) (p : Path) : bool := bool_decide (kind fs p = Directory).

(** [list(p.iterdir())]: the children as paths, [None] on [PermissionError] *)
Definition iterdir (fs : FS) (p : Path) : option (list Path) :=
  map (joinpath p) <$> listdir fs p.

(** The exception that a statement of [walk_directory] can raise and that
    is not caught: the one of [relative_to]. *)
Inductive Exn := ValueError.

(** How a call ends: it returns, an exception of a statement propagates,
    or the calls of [walk_directory] are nested deeper than the
    interpreter allows and [RecursionError] propagates: it is no
    [PermissionError], so that no handler of the walk catches it. *)
Inductive outcome (A : Type) :=
  | Returned (a : A)
  | Raised (e : Exn)
  | RecursionError.
Arguments Returned {A} a.
Arguments Raised {A} e.
Arguments RecursionError {A}.

#[global] Instance outcome_ret : MRet outcome := λ A a, Returned a.

#[global] Instance outcome_bind : MBind outcome := λ A B k m,
  match m with
  | Returned a => k a
  | Raised e => Raised e
  | RecursionError => RecursionError
  end.

(** ** generate_tree.py *)

(** [(str(item), char_count, str(relative_path))] *)
Definition FileEntry : Type := string * nat * string.

(** [count_chars(file_path)] *)
Definition count_chars (fs : FS) (file_path : Path) : nat :=
  match read_text fs file_path with
  | Some text => length text
  | None => 0
  end.

(** The default of [ignore_dirs] *)
Definition default_ignore_dirs : gset string :=
  {[ ".git"; "__pycache__"; "node_modules"; ".next"; ".turbo"; "dist"; "build"; ".sst" ]}.

(** What a piece of the generator [walk_directory] amounts to: the lines it
    yields, and the list [file_info] as it leaves it. *)
Definition walked : Type := list string * list FileEntry.

(** [for x in l: body], where [body] yields lines and appends to
    [file_info]; an exception in [body] ends the loop. *)
Fixpoint for_each {A} (body : A → list FileEntry → outcome walked) (l : list A)
    (file_info : list FileEntry) : outcome walked :=
  match l with
  | [] => Returned ([], file_info)
  | x :: l' =>
    '(lines, file_info) ← body x file_info;
    '(lines', file_info) ← for_each body l' file_info;
    Returned (lines ++ lines', file_info)
  end.

Section Walk.
Variable lower : string → string.
Variable fs : FS.
Variable ignore_dirs : gset string.
Variable root : Path.

(** The sort key of [walk_directory] *)
Definition sort_key (x : Path) : bool * string := (is_file fs x, lower (name x)).

(** The sorted [items] of a directory, [None] when the listing raises
    [PermissionError]. *)
Definition sorted_items (path : Path) : option (list Path) :=
  sorted sort_key <$> iterdir fs path.

(** The body of the [for] loop of [walk_directory]: [n] is [len(items)],
    [rec] the recursive call; [continue] and falling through both yield
    nothing. *)
Definition loop_body (rec : Path → string → bool → list FileEntry → outcome walked)
    (n : nat) (prefix : string) (i : nat) (item : Path)
    (file_info : list FileEntry) : outcome walked :=
  let is_last_item := i =? n - 1 in
  let current_prefix := if is_last_item then "└── " else "├── " in
  let connector := if is_last_item then "    " else "│   " in
  if decide (name item ∈ ignore_dirs) then
    Returned ([], file_info)
  else if is_file fs item then
    let char_count := count_chars fs item in
    match relative_to item root with
    | None => Raised ValueError
    | Some relative_path =>
      let file_info := file_info ++ [(str item, char_count, str relative_path)] in
      Returned ([prefix +:+ current_prefix +:+ name item +:+ " ("
                   +:+ format_thousands char_count +:+ ")"],
                file_info)
    end
  else if is_dir fs item then
    let line := prefix +:+ current_prefix +:+ name item +:+ "/" in
    let next_prefix := prefix +:+ connector in
    '(lines, file_info) ← rec item next_prefix is_last_item file_info;
    Returned (line :: lines, file_info)
  else
    Returned ([], file_info).

(** [walk_directory(path, prefix, is_last)], collected into a list.  A
    [PermissionError] of the listing is caught: nothing is yielded.

    [fuel] is the room the recursion limit of the interpreter
    ([sys.getrecursionlimit()], 1000 unless it is changed) leaves at the
    call: the number of calls of [walk_directory], this one included,
    that can be nested in one another, each with the calls it makes
    itself.  With no room left the call raises [RecursionError]; every
    call that [yield from] enters has one level less than its caller. *)
Fixpoint walk_directory (fuel : nat) (path : Path) (prefix : string) (is_last : bool)
    (file_info : list FileEntry) : outcome walked :=
  match fuel with
  | 0 => RecursionError
  | S fuel' =>
    match sorted_items path with
    | None => Returned ([], file_info)
    | Some items =>
      for_each (λ '(i, item), loop_body (walk_directory fuel') (length items) prefix i item)
        (enumerate items) file_info
    end
  end.
End Walk.

(** [get_tree_structure(root_dir, ignore_dirs)], with [root = Path(root_dir)]
    already built; [fuel] is the room the recursion limit leaves for the
    walk of the root. *)
Definition get_tree_structure (lower : string → string) (fs : FS) (fuel : nat)
    (root : Path) (ignore_dirs : option (gset string)) : outcome walked :=
  let ignore_dirs := default default_ignore_dirs ignore_dirs in
  let file_info := [] in
  walk_directory lower fs ignore_dirs root fuel root "" true file_info.

(** [Path(".")] *)
Definition cwd : Path := mkPath false [].

(** One line of the second section of the report *)
Definition top_line (e : FileEntry) : string :=
  let '(full_path, char_count, relative_path) := e in
  full_path +:+ " (" +:+ format_thousands char_count +:+ ")" +:+ nl.

(** What [main] leaves behind: the lines printed and the text written to
    [repo_structure.txt]. *)
Record Report := mkReport { console : list string; written : string }.

(** [file_info.sort(key=lambda x: x[1], reverse=True)] *)
Definition sort_file_info (file_info : list FileEntry) : list FileEntry :=
  sort_reverse (λ x, x.1.2) file_info.

(** The first section of the report: the banner, the root line and the
    lines of the tree *)
Definition tree_section (tree_lines : list string) : string :=
  str_mul "=" 80 +:+ nl
  +:+ "TREE СТРУКТУРА РЕПОЗИТОРИЯ" +:+ nl
  +:+ str_mul "=" 80 +:+ nl +:+ nl
  +:+ "." +:+ nl
  +:+ join "" (map (λ line, line +:+ nl) tree_lines).

(** The banner of the second section *)
Definition top_banner : string :=
  nl +:+ str_mul "=" 80 +:+ nl
  +:+ "ТОП 100 ФАЙЛОВ ПО КОЛИЧЕСТВУ СИМВОЛОВ (от больших к маленьким)" +:+ nl
  +:+ str_mul "=" 80 +:+ nl +:+ nl.

(** The lines of the second section: [file_info[:100]], one line each *)
Definition top_section (file_info : list FileEntry) : string :=
  join "" (map top_line (take 100 file_info)).

(** The text [main] writes for given [tree_lines] and sorted [file_info] *)
Definition report_text (tree_lines : list string) (file_info : list FileEntry) : string :=
  tree_section tree_lines +:+ top_banner +:+ top_section file_info.

(** [main()], as far as the writing of the report raises nothing (for
    that see [run_main] below): its outcome is that of the walk, and its
    report what the run has printed and written once it is over. *)
Definition main (lower : string → string) (fs : FS) (fuel : nat) : outcome Report :=
  let root_dir := cwd in
  let output_file := "repo_structure.txt" in
  '(tree_lines, file_info) ← get_tree_structure lower fs fuel root_dir None;
  let file_info := sort_file_info file_info in
  Returned {|
    console := [ "Генерация tree-структуры...";
                 "Сортировка файлов по размеру...";
                 "Запись в файл...";
                 "Готово! Результат сохранен в " +:+ output_file;
                 "Всего файлов обработано: " +:+ format_int (length file_info) ];
    written := report_text tree_lines file_info |}.

(** ** The run of the script

    [main] above is what the script computes from the file system.  Its
    run can also end in an exception that nothing catches.  Besides the
    two of the walk there are those of the writing:
    [open(output_file, 'w')] raises an [OSError] when [repo_structure.txt]
    cannot be created or opened for writing ([PermissionError] in a
    current directory that is not writable), and [f.write] raises
    [UnicodeEncodeError] when the text holds a character that UTF-8 does
    not encode (a surrogate, which a listing puts for a byte of a name
    that is not UTF-8). *)
Inductive Uncaught :=
  | UncaughtValueError
  | UncaughtRecursionError
  | UncaughtOSError
  | UncaughtUnicodeEncodeError.

(** How the run of [main] ends: it returns and leaves its report, or an
    exception leaves it after the lines [printed]. *)
Inductive ending :=
  | Exited (r : Report)
  | Traceback (e : Uncaught) (printed : list string).

(** The run of [main()]: [writable] says whether [open(output_file, 'w')]
    succeeds, [encodes text] whether UTF-8 encodes [text].  The walk
    comes after the first [print], [open] and the calls of [f.write]
    after the third. *)
Definition run_main (lower : string → string) (fs : FS) (fuel : nat)
    (writable : bool) (encodes : string → bool) : ending :=
  match main lower fs fuel with
  | Returned r =>
    if negb writable then Traceback UncaughtOSError (take 3 (console r))
    else if encodes (written r) then Exited r
    else Traceback UncaughtUnicodeEncodeError (take 3 (console r))
  | Raised ValueError => Traceback UncaughtValueError ["Генерация tree-структуры..."]
  | RecursionError => Traceback UncaughtRecursionError ["Генерация tree-структуры..."]
  end.

(** * The vocabulary of the specification *)

(** [path] followed by the components [names] *)
Definition descend (path : Path) (names : list string) : Path :=
  mkPath (anchor path) (parts path ++ names).

Section Visits.
Variable fs : FS.
Variable ignore_dirs : gset string.
Variable root : Path.

(** [visits path item]: the walk of the directory [path] comes to the
    child [item], at any depth: [item] is a listed, non-ignored name of
    [path], or of a directory the walk descends into. *)
Inductive visits (path : Path) : Path → Prop :=
  | visits_child names x :
      listdir fs path = Some names → x ∈ names → x ∉ ignore_dirs →
      visits path (joinpath path x)
  | visits_below names x item :
      listdir fs path = Some names → x ∈ names → x ∉ ignore_dirs →
      kind fs (joinpath path x) = Directory →
      visits (joinpath path x) item →
      visits path item.

(** The entry of a visited regular file *)
Definition entry_of (path : Path) (e : FileEntry) : Prop :=
  ∃ item rel, visits path item ∧ kind fs item = RegularFile ∧
    relative_to item root = Some rel ∧
    e = (str item, count_chars fs item, str rel).

(** The line of a visited regular file or directory *)
Definition line_of (path : Path) (line : string) : Prop :=
  ∃ item pre tee, visits path item ∧ (tee = "└── " ∨ tee = "├── ") ∧
    ((kind fs item = RegularFile ∧
      line = pre +:+ tee +:+ name item +:+ " ("
               +:+ format_thousands (count_chars fs item) +:+ ")") ∨
     (kind fs item = Directory ∧ line = pre +:+ tee +:+ name item +:+ "/")).

End Visits.

(** [child fs p q]: [q] is a directory that the listing of the directory
    [p] names *)
Definition child (fs : FS) (p q : Path) : Prop :=
  ∃ names x, listdir fs p = Some names ∧ x ∈ names ∧
             kind fs (joinpath p x) = Directory ∧ q = joinpath p x.




(** Two file systems agree below [path] outside the ignored names: they
    list and read alike every path that goes down from [path] through
    names that are not ignored, and give the children of such a path, the
    ignored ones too, the same kind.  What lies below an ignored name is
    free. *)
Definition agree_outside_ignored (ignore_dirs : gset string) (fs1 fs2 : FS) (path : Path) : Prop :=
  ∀ names, Forall (λ x, x ∉ ignore_dirs) names →
    listdir fs1 (descend path names) = listdir fs2 (descend path names) ∧
    read_text fs1 (descend path names) = read_text fs2 (descend path names) ∧
    ∀ x, kind fs1 (joinpath (descend path names) x) = kind fs2 (joinpath (descend path names) x).

(** The banner: 80 times [=] *)
Definition banner : string :=
  "================================================================================".

#[local] Set Warnings "-register-all".

(** * Concrete file systems

    A directory tree written down as data, to run the walk on. *)
Inductive Tree :=
  | TFile (content : option (list N))
  | TDir (entries : option (list (string * Tree)))
  | TOther.

(** The entry called [x] of a listing *)
Fixpoint assoc (x : string) (l : list (string * Tree)) : option Tree :=
  match l with
  | [] => None
  | (y, t) :: l' => if decide (x = y) then Some t else assoc x l'
  end.

(** The node a relative path leads to *)
Fixpoint find (t : Tree) (ps : list string) : option Tree :=
  match ps with
  | [] => Some t
  | p :: ps' =>
    match t with
    | TDir (Some l) => match assoc p l with Some t' => find t' ps' | None => None end
    | _ => None
    end
  end.

(** The file system whose current directory holds the tree [t] *)
Definition fs_of_tree (t : Tree) : FS := {|
  listdir p :=
    match find t (parts p) with
    | Some (TDir (Some l)) => Some (map fst l)
    | _ => None
    end;
  kind p :=
    match find t (parts p) with
    | Some (TFile _) => RegularFile
    | Some (TDir _) => Directory
    | _ => Other
    end;
  read_text p :=
    match find t (parts p) with
    | Some (TFile c) => c
    | _ => None
    end |}.

Definition text (n : nat) : option (list N) := Some (replicate n 97%N).

Definition ex1 : Tree := TDir (Some [
  ("b.txt", TFile (text 11));
  ("a.txt", TFile (text 2));
  (".git", TDir (Some [("c.txt", TFile (text 5))]));
  ("Src", TDir (Some [("main.py", TFile (text 1234)); ("lib", TDir (Some [])); ("sock", TOther)]));
  ("locked", TDir None);
  ("build", TFile (text 3));
  ("secret.txt", TFile None)]).

(** The file system [ex1] describes *)
Definition ex1_fs : FS := fs_of_tree ex1.

(** The sorted items of its root *)
Definition ex1_items : list Path :=
  map (joinpath cwd) [".git"; "locked"; "Src"; "a.txt"; "b.txt"; "build"; "secret.txt"].

(** The lines and the entries of its walk *)
Definition ex1_lines : list string :=
  ["├── locked/"; "├── Src/"; "│   ├── lib/"; "│   └── main.py (1,234)";
   "├── a.txt (2)"; "├── b.txt (11)"; "└── secret.txt (0)"].

Definition ex1_file_info : list FileEntry :=
  [("Src/main.py", 1234, "Src/main.py"); ("a.txt", 2, "a.txt"); ("b.txt", 11, "b.txt");
   ("secret.txt", 0, "secret.txt")].

(** A root that holds one directory, which cannot be listed *)
Definition locked_fs : FS := fs_of_tree (TDir (Some [("locked", TDir None)])).

(** A root that holds one file of two characters *)
Definition one_file_fs : FS := fs_of_tree (TDir (Some [("a.txt", TFile (text 2))])).

(** An empty root *)
Definition empty_fs : FS := fs_of_tree (TDir (Some [])).

(** A root that holds a directory and, sorted after it, a socket *)
Definition socket_fs : FS :=
  fs_of_tree (TDir (Some [("zsock", TOther); ("lib", TDir (Some []))])).

(** A root that holds a file and, sorted after it, a file with an ignored
    name *)
Definition ignored_last_fs : FS :=
  fs_of_tree (TDir (Some [("build", TFile (text 3)); ("a.txt", TFile (text 2))])).

(** The number of directories on the longest way down *)
Fixpoint depth (t : Tree) : nat :=
  match t with
  | TDir (Some l) =>
    S ((fix go (l : list (string * Tree)) : nat :=
          match l with
          | [] => 0
          | (_, t') :: l' => depth t' `max` go l'
          end) l)
  | _ => 0
  end.

(** A root that holds two directories, the one sorted last with an
    ignored name *)
Definition ignored_last_dir_fs : FS :=
  fs_of_tree (TDir (Some [("node_modules", TDir (Some []));
                          ("lib", TDir (Some [("x.py", TFile (text 7))]))])).

(** [n] directories [d] nested in one another, the innermost empty, as
    [mkdir -p d/d/.../d] makes them *)
Fixpoint chain (n : nat) : Tree :=
  match n with
  | 0 => TDir (Some [])
  | S n' => TDir (Some [("d", chain n')])
  end.

(** A root with 1100 directories nested in one another *)
Definition deep_fs : FS := fs_of_tree (chain 1100).


(** * Facts *)

(** ** Formatting *)

Example format_thousands_examples :
  format_thousands 0 = "0" ∧ format_thousands 999 = "999" ∧
  format_thousands 1000 = "1,000" ∧ format_thousands (123 * 1000 + 456) = "123,456" ∧
  format_thousands (1234 * 1000 + 567) = "1,234,567".
Proof. by vm_compute. Qed.

Example str_examples :
  str cwd = "." ∧ str (joinpath cwd "a") = "a" ∧
  str (joinpath (joinpath cwd "a") "b") = "a/b" ∧
  str (joinpath (mkPath true ["srv"]) "a") = "/srv/a" ∧
  relative_to (joinpath (mkPath true ["srv"]) "a") (mkPath true ["srv"])
    = Some (mkPath false ["a"]) ∧
  relative_to (mkPath true ["srv"]) cwd = None.
Proof. by vm_compute. Qed.

(** ** The stable sort *)

Section SortFacts.
Context {A : Type} (le : A → A → bool).

Lemma insert_sorted_perm x l : insert_sorted le x l ≡ₚ x :: l.
Proof.
  induction l as [|y l IH]; simpl; [done|].
  destruct (le x y); [done|]. rewrite IH. apply Permutation_swap.
Qed.

Lemma stable_sort_perm l : stable_sort le l ≡ₚ l.
Proof.
  induction l as [|x l IH]; simpl; [done|].
  by rewrite insert_sorted_perm, IH.
Qed.

Lemma stable_sort_length l : length (stable_sort le l) = length l.
Proof. by rewrite stable_sort_perm. Qed.

(** Elements of a class whose members may all stay before one another
    come out in the order they went in. *)
Lemma insert_sorted_filter (P : A → Prop) `{!∀ x, Decision (P x)} x l :
  (∀ y z, P y → P z → le y z) →
  filter P (insert_sorted le x l) = filter P (x :: l).
Proof.
  intros HP. induction l as [|y l IH]; simpl; [done|].
  destruct (le x y) eqn:Hxy; [done|].
  rewrite filter_cons, IH, !filter_cons.
  destruct (decide (P x)) as [Hx|Hx]; [|done].
  destruct (decide (P y)) as [Hy|Hy]; [|done].
  specialize (HP x y Hx Hy). rewrite Hxy in HP. done.
Qed.

Lemma stable_sort_filter (P : A → Prop) `{!∀ x, Decision (P x)} l :
  (∀ y z, P y → P z → le y z) →
  filter P (stable_sort le l) = filter P l.
Proof.
  intros HP. induction l as [|x l IH]; simpl; [done|].
  rewrite insert_sorted_filter by done. by rewrite !filter_cons, IH.
Qed.

Section Ordered.
Hypothesis le_total : ∀ x y, le x y ∨ le y x.
Hypothesis le_trans : ∀ x y z, le x y → le y z → le x z.

Lemma insert_sorted_sorted x l :
  StronglySorted le l → StronglySorted le (insert_sorted le x l).
Proof.
  induction 1 as [|y l Hl IH Hy]; simpl.
  - repeat constructor.
  - destruct (le x y) eqn:Hxy.
    + constructor; [by constructor|].
      constructor; [by rewrite Hxy|].
      eapply Forall_impl; [exact Hy|]. intros z Hz.
      eapply le_trans; [|exact Hz]. by rewrite Hxy.
    + constructor; [done|].
      rewrite insert_sorted_perm. constructor; [|done].
      destruct (le_total x y) as [H|H]; [by rewrite Hxy in H|done].
Qed.

Lemma stable_sort_sorted l : StronglySorted le (stable_sort le l).
Proof.
  induction l; simpl; [constructor|by apply insert_sorted_sorted].
Qed.

(** In a sorted list an earlier element may stay before a later one. *)
Lemma sorted_lookup_le l i j x y :
  StronglySorted le l → i < j → l !! i = Some x → l !! j = Some y → le x y.
Proof.
  intros Hl. revert i j. induction Hl as [|z l Hl IH Hz]; intros i j Hij Hi Hj.
  - by rewrite lookup_nil in Hi.
  - destruct j as [|j]; [lia|]. simpl in Hj. destruct i as [|i].
    + simpl in Hi. injection Hi as ->.
      rewrite Forall_forall in Hz. apply Hz. eapply list_elem_of_lookup_2, Hj.
    + simpl in Hi. apply (IH i j); [lia|done..].
Qed.
End Ordered.
End SortFacts.

(** ** The two orders *)

Lemma key_le_total k1 k2 : key_le k1 k2 ∨ key_le k2 k1.
Proof.
  unfold key_le. destruct k1 as [[] s1], k2 as [[] s2]; simpl; auto;
    destruct (String.leb_total s1 s2) as [->| ->]; auto.
Qed.

Lemma key_le_trans k1 k2 k3 : key_le k1 k2 → key_le k2 k3 → key_le k1 k3.
Proof.
  unfold key_le. destruct k1 as [[] s1], k2 as [[] s2], k3 as [[] s3]; simpl;
    try done; apply (transitivity (R:=String.le)).
Qed.

Lemma key_le_refl k : key_le k k.
Proof.
  unfold key_le. destruct k as [[] s]; simpl; apply (reflexivity (R:=String.le)).
Qed.

Lemma sorted_perm {A} (key : A → bool * string) l : sorted key l ≡ₚ l.
Proof. apply stable_sort_perm. Qed.

Lemma sorted_length {A} (key : A → bool * string) l : length (sorted key l) = length l.
Proof. apply stable_sort_length. Qed.


(** [sorted] keeps the elements of one key in the order of its input. *)
Lemma sorted_stable {A} (key : A → bool * string) k l :
  filter (λ x, key x = k) (sorted key l) = filter (λ x, key x = k) l.
Proof.
  apply (stable_sort_filter _ (λ x, key x = k)).
  intros y z -> <-. apply key_le_refl.
Qed.

(** ** The loop *)

Section ForEach.
Context {A : Type} (body : A → list FileEntry → outcome walked).

Lemma for_each_cons_returned x l fi lines fi' :
  for_each body (x :: l) fi = Returned (lines, fi') ↔
  ∃ a fi1 b, body x fi = Returned (a, fi1) ∧
             for_each body l fi1 = Returned (b, fi') ∧ lines = a ++ b.
Proof.
  simpl. destruct (body x fi) as [[a fi1]| |]; simpl.
  - destruct (for_each body l fi1) as [[b fi2]| |] eqn:Hl; simpl.
    + split.
      * intros [= <- <-]. by exists a, fi1, b.
      * intros (a' & fi1' & b' & Ha & Hb & ->). simplify_eq. congruence.
    + split; [done|]. intros (? & ? & ? & Ha & Hb & _). simplify_eq. congruence.
    + split; [done|]. intros (? & ? & ? & Ha & Hb & _). simplify_eq. congruence.
  - split; [done|]. by intros (? & ? & ? & ? & _).
  - split; [done|]. by intros (? & ? & ? & ? & _).
Qed.

Lemma for_each_app_returned l1 l2 fi lines fi' :
  for_each body (l1 ++ l2) fi = Returned (lines, fi') ↔
  ∃ a fi1 b, for_each body l1 fi = Returned (a, fi1) ∧
             for_each body l2 fi1 = Returned (b, fi') ∧ lines = a ++ b.
Proof.
  revert fi lines. induction l1 as [|x l1 IH]; intros fi lines.
  - simpl. split.
    + intros H. by exists [], fi, lines.
    + intros (a & fi1 & b & Ha & H & ->). by simplify_eq.
  - rewrite <-app_comm_cons, for_each_cons_returned. split.
    + intros (a & fi1 & b & Hx & Hl & ->).
      apply IH in Hl as (a' & fi2 & b' & H1 & H2 & ->).
      exists (a ++ a'), fi2, b'. split_and!; [|done|by rewrite app_assoc].
      apply for_each_cons_returned. by exists a, fi1, a'.
    + intros (a & fi1 & b & H1 & H2 & ->).
      apply for_each_cons_returned in H1 as (a1 & fi0 & a2 & Hx & Hl & ->).
      exists a1, fi0, (a2 ++ b). split_and!; [done| |by rewrite app_assoc].
      apply IH. by exists a2, fi1, b.
Qed.

(** The loop around one of its iterations *)
Lemma for_each_middle_returned l1 x l2 fi lines fi' :
  for_each body (l1 ++ x :: l2) fi = Returned (lines, fi') ↔
  ∃ before fi1 here fi2 after,
    for_each body l1 fi = Returned (before, fi1) ∧
    body x fi1 = Returned (here, fi2) ∧
    for_each body l2 fi2 = Returned (after, fi') ∧
    lines = before ++ here ++ after.
Proof.
  rewrite for_each_app_returned. split.
  - intros (a & fi1 & b & H1 & H2 & ->).
    apply for_each_cons_returned in H2 as (c & fi2 & d & Hx & Hl & ->).
    by exists a, fi1, c, fi2, d.
  - intros (a & fi1 & c & fi2 & d & H1 & Hx & Hl & ->).
    exists a, fi1, (c ++ d). split_and!; [done| |done].
    apply for_each_cons_returned. by exists c, fi2, d.
Qed.
End ForEach.

Lemma eqb_bool_decide (i n : nat) : (i =? n) = bool_decide (i = n).
Proof.
  destruct (Nat.eqb_spec i n);
    [by rewrite bool_decide_eq_true_2|by rewrite bool_decide_eq_false_2].
Qed.

Lemma enumerate_lookup {A} (l : list A) i x :
  enumerate l !! i = Some x ↔ ∃ y, x = (i, y) ∧ l !! i = Some y.
Proof.
  unfold enumerate. rewrite list_lookup_imap.
  destruct (l !! i) as [y|]; simpl; split.
  - intros [= <-]. by exists y.
  - by intros (? & -> & [= ->]).
  - done.
  - by intros (? & _ & ?).
Qed.

Lemma enumerate_split {A} (l : list A) i x :
  l !! i = Some x →
  enumerate l = take i (enumerate l) ++ (i, x) :: drop (S i) (enumerate l).
Proof.
  intros H. symmetry. apply take_drop_middle, enumerate_lookup. by exists x.
Qed.

Lemma enumerate_elem {A} (l : list A) i x :
  (i, x) ∈ enumerate l ↔ l !! i = Some x.
Proof.
  rewrite list_elem_of_lookup. split.
  - intros (j & Hj). apply enumerate_lookup in Hj as (y & [= -> ->] & H). done.
  - intros H. exists i. apply enumerate_lookup. by exists x.
Qed.

(** An invariant of the loop: when every iteration only appends entries
    satisfying [Pe] and only yields lines satisfying [Pl], so does the loop. *)
Lemma for_each_inv {A} (body : A → list FileEntry → outcome walked)
    (Pe : FileEntry → Prop) (Pl : string → Prop) l :
  (∀ x fi a fi1, x ∈ l → body x fi = Returned (a, fi1) →
     ∃ new, fi1 = fi ++ new ∧ Forall Pe new ∧ Forall Pl a) →
  ∀ fi lines fi', for_each body l fi = Returned (lines, fi') →
     ∃ new, fi' = fi ++ new ∧ Forall Pe new ∧ Forall Pl lines.
Proof.
  induction l as [|x l IH]; intros Hbody fi lines fi' H.
  - simpl in H. injection H as <- <-. exists []. by rewrite app_nil_r.
  - apply for_each_cons_returned in H as (a & fi1 & b & Hx & Hl & ->).
    apply Hbody in Hx as (new1 & -> & He1 & Hl1); [|by left].
    apply IH in Hl as (new2 & -> & He2 & Hl2).
    + exists (new1 ++ new2). rewrite app_assoc, !Forall_app. done.
    + intros y fi0 a0 fi2 Hy. apply Hbody. by right.
Qed.

(** A loop of iterations that yield nothing yields nothing. *)
Lemma for_each_nothing {A} (body : A → list FileEntry → outcome walked) l :
  (∀ x fi, x ∈ l → body x fi = Returned ([], fi)) →
  ∀ fi, for_each body l fi = Returned ([], fi).
Proof.
  induction l as [|x l IH]; intros Hb fi; [done|]. simpl.
  rewrite (Hb x fi) by by left. simpl.
  by rewrite (IH (λ y fi0 Hy, Hb y fi0 (list_elem_of_further _ _ _ Hy))).
Qed.




(** ** Paths *)

Lemma descend_nil path : descend path [] = path.
Proof. destruct path. unfold descend. simpl. by rewrite app_nil_r. Qed.

Lemma descend_joinpath path x names :
  descend (joinpath path x) names = descend path (x :: names).
Proof. unfold descend, joinpath. simpl. by rewrite <-app_assoc. Qed.

Lemma joinpath_descend path x : joinpath path x = descend path [x].
Proof. done. Qed.

Lemma name_joinpath path x : name (joinpath path x) = x.
Proof. unfold name, joinpath. simpl. by rewrite last_snoc. Qed.

Lemma drop_prefix_app k r : drop_prefix (k ++ r) k = Some r.
Proof. induction k as [|x k IH]; simpl; [done|]. by rewrite decide_True. Qed.

Lemma relative_to_descend path names :
  relative_to (descend path names) path = Some (mkPath false names).
Proof.
  unfold relative_to, descend. simpl. rewrite decide_True by done.
  by rewrite drop_prefix_app.
Qed.

(** ** The walk *)

Section WalkFacts.
Variable lower : string → string.
Variable fs : FS.
Variable ignore_dirs : gset string.
Variable root : Path.

Abbreviation walk := (walk_directory lower fs ignore_dirs root).
Abbreviation body fuel n prefix :=
  (λ '(i, item), loop_body fs ignore_dirs root (walk fuel) n prefix i item).

Lemma sorted_items_Some path items :
  sorted_items lower fs path = Some items ↔
  ∃ names, listdir fs path = Some names ∧
           items = sorted (sort_key lower fs) (map (joinpath path) names).
Proof.
  unfold sorted_items, iterdir. destruct (listdir fs path) as [names|]; simpl.
  - split; [intros [= <-]; by exists names|by intros (? & [= <-] & ->)].
  - split; [done|by intros (? & ? & _)].
Qed.

Lemma sorted_items_None path :
  sorted_items lower fs path = None ↔ listdir fs path = None.
Proof.
  unfold sorted_items, iterdir. by destruct (listdir fs path).
Qed.

(** Every item of a directory is one of its listed names joined to it. *)
Lemma sorted_items_elem path items item :
  sorted_items lower fs path = Some items →
  item ∈ items ↔ ∃ names x, listdir fs path = Some names ∧ x ∈ names ∧ item = joinpath path x.
Proof.
  intros (names & Hl & ->)%sorted_items_Some.
  rewrite sorted_perm, list_elem_of_fmap. split.
  - intros (x & -> & Hx). by exists names, x.
  - intros (names' & x & Hl' & Hx & ->). exists x. by simplify_eq.
Qed.

Lemma sorted_items_length path items names :
  sorted_items lower fs path = Some items → listdir fs path = Some names →
  length items = length names.
Proof.
  intros (names' & Hl & ->)%sorted_items_Some ?. simplify_eq.
  by rewrite sorted_length, length_map.
Qed.

(** The walk of a directory around the iteration of its [i]-th item *)
Lemma walk_directory_at fuel path prefix is_last fi items i item lines fi' :
  sorted_items lower fs path = Some items →
  items !! i = Some item →
  walk (S fuel) path prefix is_last fi = Returned (lines, fi') ↔
  ∃ before fi1 here fi2 after,
    for_each (body fuel (length items) prefix) (take i (enumerate items)) fi
      = Returned (before, fi1) ∧
    loop_body fs ignore_dirs root (walk fuel) (length items) prefix i item fi1
      = Returned (here, fi2) ∧
    for_each (body fuel (length items) prefix) (drop (S i) (enumerate items)) fi2
      = Returned (after, fi') ∧
    lines = before ++ here ++ after.
Proof.
  intros Hitems Hi. simpl. rewrite Hitems.
  rewrite (enumerate_split items i item Hi) at 1.
  rewrite for_each_middle_returned. split; intros H; exact H.
Qed.
(** A visited child lies below [path], and no component on the way down
    to it, its own name included, is ignored. *)
Lemma visits_names path item :
  visits fs ignore_dirs path item →
  ∃ names, names ≠ [] ∧ Forall (λ x, x ∉ ignore_dirs) names ∧ item = descend path names.
Proof.
  induction 1 as [path names x Hl Hx Hi|path names x item Hl Hx Hi Hk _ IH].
  - exists [x]. split_and!; [done|by repeat constructor|done].
  - destruct IH as (names' & _ & Hall & ->). exists (x :: names').
    split_and!; [done|by constructor|apply descend_joinpath].
Qed.

Lemma entry_of_below path names x e :
  listdir fs path = Some names → x ∈ names → x ∉ ignore_dirs →
  kind fs (joinpath path x) = Directory →
  entry_of fs ignore_dirs root (joinpath path x) e → entry_of fs ignore_dirs root path e.
Proof.
  intros Hl Hx Hi Hk (item & rel & Hv & H). exists item, rel.
  split; [|done]. by eapply visits_below.
Qed.

Lemma line_of_below path names x line :
  listdir fs path = Some names → x ∈ names → x ∉ ignore_dirs →
  kind fs (joinpath path x) = Directory →
  line_of fs ignore_dirs (joinpath path x) line → line_of fs ignore_dirs path line.
Proof.
  intros Hl Hx Hi Hk (item & pre & tee & Hv & H). exists item, pre, tee.
  split; [|done]. by eapply visits_below.
Qed.

(** Whatever the walk returns comes from visited children only: the list
    [file_info] is extended by entries of visited regular files, and every
    line is the line of a visited regular file or directory. *)
Lemma walk_directory_sound fuel path prefix is_last fi lines fi' :
  walk fuel path prefix is_last fi = Returned (lines, fi') →
  ∃ new, fi' = fi ++ new ∧ Forall (entry_of fs ignore_dirs root path) new ∧ Forall (line_of fs ignore_dirs path) lines.
Proof.
  revert path prefix is_last fi lines fi'.
  induction fuel as [|fuel IH]; intros path prefix is_last fi lines fi' H; [done|].
  simpl in H. destruct (sorted_items lower fs path) as [items|] eqn:Hitems.
  2:{ injection H as <- <-. exists []. by rewrite app_nil_r. }
  revert H. apply for_each_inv. intros [i item] fi0 a fi1 Hin Hbody.
  apply enumerate_elem, list_elem_of_lookup_2 in Hin.
  apply (sorted_items_elem _ _ _ Hitems) in Hin as (names & x & Hl & Hx & ->).
  unfold loop_body in Hbody. rewrite name_joinpath in Hbody.
  destruct (decide (x ∈ ignore_dirs)) as [|Hi].
  { injection Hbody as <- <-. exists []. by rewrite app_nil_r. }
  unfold is_file, is_dir in Hbody.
  destruct (decide (kind fs (joinpath path x) = RegularFile)) as [Hk|Hk].
  - rewrite bool_decide_eq_true_2 in Hbody by done.
    destruct (relative_to (joinpath path x) root) as [rel|] eqn:Hrel; [|done].
    injection Hbody as <- <-. eexists. split; [done|]. split.
    + repeat constructor. exists (joinpath path x), rel.
      split_and!; [by eapply visits_child|done..].
    + repeat constructor. eexists (joinpath path x), prefix, _.
      split; [by eapply visits_child|]. rewrite name_joinpath.
      split; [|by left]. destruct (i =? _); auto.
  - rewrite bool_decide_eq_false_2 in Hbody by done.
    destruct (decide (kind fs (joinpath path x) = Directory)) as [Hd|Hd].
    + rewrite bool_decide_eq_true_2 in Hbody by done.
      destruct (walk fuel _ _ _ fi0) as [[sub fi2]| |] eqn:Hsub; [|done..].
      simpl in Hbody. injection Hbody as <- <-.
      apply IH in Hsub as (new & -> & He & Hlines). exists new. split; [done|]. split.
      * eapply Forall_impl; [exact He|]. intros e. by eapply entry_of_below.
      * constructor.
        -- eexists (joinpath path x), prefix, _.
           split; [by eapply visits_child|]. rewrite name_joinpath.
           split; [|by right]. destruct (i =? _); auto.
        -- eapply Forall_impl; [exact Hlines|]. intros l. by eapply line_of_below.
    + rewrite bool_decide_eq_false_2 in Hbody by done.
      injection Hbody as <- <-. exists []. by rewrite app_nil_r.
Qed.

Lemma loop_body_extends fuel n prefix i item fi here fi' :
  loop_body fs ignore_dirs root (walk fuel) n prefix i item fi = Returned (here, fi') →
  ∃ new, fi' = fi ++ new.
Proof.
  unfold loop_body. intros H.
  destruct (decide _); [injection H as <- <-; exists []; by rewrite app_nil_r|].
  destruct (is_file fs item).
  { destruct (relative_to item root); [|done]. injection H as <- <-. by eexists. }
  destruct (is_dir fs item); [|injection H as <- <-; exists []; by rewrite app_nil_r].
  destruct (walk fuel _ _ _ fi) as [[sub fi2]| |] eqn:Hsub; [|done..].
  simpl in H. injection H as <- <-.
  apply walk_directory_sound in Hsub as (new & -> & _). by exists new.
Qed.

Lemma for_each_extends fuel n prefix l fi lines fi' :
  for_each (body fuel n prefix) l fi = Returned (lines, fi') → ∃ new, fi' = fi ++ new.
Proof.
  intros H.
  apply (for_each_inv _ (λ _, True) (λ _, True)) in H as (new & -> & _); [by exists new|].
  intros [i item] fi0 a fi1 _ (new & ->)%loop_body_extends.
  exists new. split; [done|]. split; by apply Forall_true.
Qed.

(** A listed name has a position among the sorted items. *)
Lemma sorted_items_position path names x :
  listdir fs path = Some names → x ∈ names →
  ∃ items i, sorted_items lower fs path = Some items ∧ items !! i = Some (joinpath path x).
Proof.
  intros Hl Hx.
  assert (sorted_items lower fs path
          = Some (sorted (sort_key lower fs) (map (joinpath path) names))) as Hitems.
  { apply sorted_items_Some. by exists names. }
  assert (joinpath path x ∈ sorted (sort_key lower fs) (map (joinpath path) names)) as Hin.
  { apply (sorted_items_elem _ _ _ Hitems). by exists names, x. }
  apply list_elem_of_lookup_1 in Hin as [i Hi]. by eexists _, i.
Qed.

(** Whatever the walk visits shows in what it returns: a visited regular
    file has its entry in [file_info] and its line, a visited directory has
    its line. *)
Lemma walk_directory_complete fuel path prefix is_last fi lines fi' item :
  walk fuel path prefix is_last fi = Returned (lines, fi') →
  visits fs ignore_dirs path item →
  (kind fs item = RegularFile →
     ∃ rel pre tee, relative_to item root = Some rel ∧
       (str item, count_chars fs item, str rel) ∈ fi' ∧
       (pre +:+ tee +:+ name item +:+ " (" +:+ format_thousands (count_chars fs item)
          +:+ ")") ∈ lines) ∧
  (kind fs item = Directory →
     ∃ pre tee, (pre +:+ tee +:+ name item +:+ "/") ∈ lines).
Proof.
  intros Hwalk Hv. revert fuel prefix is_last fi lines fi' Hwalk.
  induction Hv as [path names x Hl Hx Hi|path names x item Hl Hx Hi Hk Hv IH];
    intros fuel prefix is_last fi lines fi' Hwalk;
    (destruct fuel as [|fuel]; [done|]);
    destruct (sorted_items_position path names x Hl Hx) as (items & i & Hitems & Hix);
    destruct (proj1 (walk_directory_at _ _ _ _ _ items i _ _ _ Hitems Hix) Hwalk)
      as (before & fi1 & here & fi2 & after & Hb & Hhere & Ha & ->);
    apply for_each_extends in Ha as (new & ->);
    unfold loop_body in Hhere; rewrite name_joinpath, decide_False in Hhere by done;
    unfold is_file, is_dir in Hhere.
  - split; intros Hk.
    + rewrite bool_decide_eq_true_2 in Hhere by done.
      destruct (relative_to (joinpath path x) root) as [rel|]; [|done].
      injection Hhere as <- <-. eexists rel, prefix, _. split; [done|].
      rewrite name_joinpath. split.
      { rewrite !elem_of_app. left; right. by left. }
      rewrite !elem_of_app. right; left. apply list_elem_of_singleton. done.
    + rewrite bool_decide_eq_false_2 in Hhere by congruence.
      rewrite bool_decide_eq_true_2 in Hhere by done.
      destruct (walk fuel _ _ _ fi1) as [[sub fi3]| |]; [|done..].
      simpl in Hhere. injection Hhere as <- <-. eexists prefix, _.
      rewrite name_joinpath, !elem_of_app. right; left. by left.
  - rewrite bool_decide_eq_false_2 in Hhere by congruence.
    rewrite bool_decide_eq_true_2 in Hhere by done.
    destruct (walk fuel _ _ _ fi1) as [[sub fi3]| |] eqn:Hsub; [|done..].
    simpl in Hhere. injection Hhere as <- <-.
    apply IH in Hsub as [Hf Hd]. split; intros Hki.
    + destruct (Hf Hki) as (rel & pre & tee & Hrel & He & Hline).
      exists rel, pre, tee. split; [done|]. split; [apply elem_of_app; by left|].
      rewrite !elem_of_app. right; left. by right.
    + destruct (Hd Hki) as (pre & tee & Hline). exists pre, tee.
      rewrite !elem_of_app. right; left. by right.
Qed.

(** The line of the child at position [j], when it has one *)
Lemma walk_directory_child_line fuel path prefix is_last fi items j other lines fi' :
  sorted_items lower fs path = Some items →
  items !! j = Some other →
  name other ∉ ignore_dirs →
  kind fs other ≠ Other →
  walk (S fuel) path prefix is_last fi = Returned (lines, fi') →
  ∃ suffix,
    (prefix +:+ (if bool_decide (j = length items - 1) then "└── " else "├── ")
       +:+ name other +:+ suffix) ∈ lines.
Proof.
  intros Hitems Hj Hign Hk Hwalk.
  destruct (proj1 (walk_directory_at _ _ _ _ _ items j _ _ _ Hitems Hj) Hwalk)
    as (before & fi1 & here & fi2 & after & _ & Hhere & _ & ->).
  unfold loop_body in Hhere. rewrite decide_False, eqb_bool_decide in Hhere by done.
  unfold is_file, is_dir in Hhere.
  destruct (kind fs other) eqn:Hkind; [| |done].
  - rewrite bool_decide_eq_true_2 in Hhere by done.
    destruct (relative_to other root); [|done]. injection Hhere as <- <-.
    eexists. rewrite !elem_of_app. right; left. by left.
  - rewrite bool_decide_eq_false_2, bool_decide_eq_true_2 in Hhere by done.
    destruct (walk fuel _ _ _ fi1) as [[sub fi3]| |]; [|done..].
    simpl in Hhere. injection Hhere as <- <-.
    eexists. rewrite !elem_of_app. right; left. by left.
Qed.

End WalkFacts.

(** ** Fuel *)



Section Fuel.
Variable lower : string → string.
Variable fs : FS.
Variable ignore_dirs : gset string.
Variable root : Path.

Abbreviation walk := (walk_directory lower fs ignore_dirs root).




(** ** The recursion limit *)




End Fuel.

(** ** Finitely many directories and no cycle *)



(** ** What the walk depends on *)

Lemma insert_sorted_ext {A} (le1 le2 : A → A → bool) x l :
  (∀ y, y ∈ l → le1 x y = le2 x y) →
  insert_sorted le1 x l = insert_sorted le2 x l.
Proof.
  induction l as [|y l IH]; intros H; simpl; [done|].
  rewrite (H y) by by left. rewrite IH; [done|]. intros z Hz. apply H. by right.
Qed.

Lemma stable_sort_ext {A} (le1 le2 : A → A → bool) l :
  (∀ x y, x ∈ l → y ∈ l → le1 x y = le2 x y) →
  stable_sort le1 l = stable_sort le2 l.
Proof.
  induction l as [|x l IH]; intros H; simpl; [done|].
  rewrite IH by (intros y z Hy Hz; apply H; by right).
  apply insert_sorted_ext. intros y Hy. rewrite stable_sort_perm in Hy.
  apply H; [by left|by right].
Qed.

Lemma sorted_ext {A} (key1 key2 : A → bool * string) l :
  (∀ x, x ∈ l → key1 x = key2 x) → sorted key1 l = sorted key2 l.
Proof.
  intros H. apply stable_sort_ext. intros x y Hx Hy. by rewrite (H x), (H y).
Qed.

Lemma for_each_ext {A} (b1 b2 : A → list FileEntry → outcome walked) l fi :
  (∀ x fi0, x ∈ l → b1 x fi0 = b2 x fi0) → for_each b1 l fi = for_each b2 l fi.
Proof.
  revert fi. induction l as [|x l IH]; intros fi H; simpl; [done|].
  rewrite (H x fi) by by left. destruct (b2 x fi) as [[a fi1]| |]; simpl; [|done..].
  rewrite IH; [done|]. intros y fi0 Hy. apply H. by right.
Qed.

Section Independence.
Variable lower : string → string.
Variable ignore_dirs : gset string.
Variable root : Path.

Lemma agree_outside_ignored_child fs1 fs2 path x :
  x ∉ ignore_dirs →
  agree_outside_ignored ignore_dirs fs1 fs2 path → agree_outside_ignored ignore_dirs fs1 fs2 (joinpath path x).
Proof.
  intros Hx H names Hnames. rewrite descend_joinpath. apply H. by constructor.
Qed.

(** The walk does not look below an ignored name. *)
Lemma walk_directory_agree fs1 fs2 fuel path prefix is_last fi :
  agree_outside_ignored ignore_dirs fs1 fs2 path →
  walk_directory lower fs1 ignore_dirs root fuel path prefix is_last fi
  = walk_directory lower fs2 ignore_dirs root fuel path prefix is_last fi.
Proof.
  revert path prefix is_last fi.
  induction fuel as [|fuel IH]; intros path prefix is_last fi Hagree; [done|].
  destruct (Hagree [] (Forall_nil_2 _)) as (Hl & _ & Hk). rewrite descend_nil in Hl, Hk.
  assert (sorted_items lower fs1 path = sorted_items lower fs2 path) as Hitems.
  { unfold sorted_items, iterdir. rewrite Hl. destruct (listdir fs2 path) as [names|]; [|done].
    simpl. f_equal. apply sorted_ext. intros p (x & -> & _)%list_elem_of_fmap.
    unfold sort_key, is_file. by rewrite Hk. }
  simpl. rewrite Hitems. destruct (sorted_items lower fs2 path) as [items|] eqn:Hi; [|done].
  apply for_each_ext. intros [i item] fi0 Hin.
  apply enumerate_elem, list_elem_of_lookup_2 in Hin.
  apply (sorted_items_elem _ _ _ _ _ Hi) in Hin as (names & x & _ & _ & ->).
  unfold loop_body. rewrite name_joinpath.
  destruct (decide (x ∈ ignore_dirs)) as [|Hx]; [done|].
  unfold is_file, is_dir, count_chars. rewrite Hk.
  destruct (Hagree [x]) as (_ & Hr & _); [by repeat constructor|].
  change (descend path [x]) with (joinpath path x) in Hr. rewrite Hr.
  destruct (bool_decide _); [done|]. destruct (bool_decide _); [|done].
  by rewrite (IH (joinpath path x)) by by apply agree_outside_ignored_child.
Qed.
End Independence.

(** ** File systems given as trees *)





(** * The specification, claim by claim *)

(** ** The walk of one directory *)

Section Claims.
Variable lower : string → string.
Variable fs : FS.
Variable ignore_dirs : gset string.
Variable root : Path.

Abbreviation walk := (walk_directory lower fs ignore_dirs root).
Abbreviation body fuel n prefix :=
  (λ '(i, item), loop_body fs ignore_dirs root (walk fuel) n prefix i item).

(** The rule the code draws by.  In the walk of a listed directory, take
    the child at position [i] of the sorted listing [items] of all the
    children, the ignored ones included, itself not ignored.  The lines
    of the walk are those of the children before it, then its own, then
    those of the children after it.  Its own line carries [└── ] when
    [i] is the last position of [items], and [├── ] otherwise; and if it
    is a directory, the lines of its subtree follow, from the call whose
    indentation is the current one extended by four blanks when [i] is
    the last position of [items], and by [│   ] otherwise. *)
Lemma connector_by_listing_position fuel path prefix is_last fi items i item lines fi' :
  sorted_items lower fs path = Some items →
  items !! i = Some item →
  name item ∉ ignore_dirs →
  walk (S fuel) path prefix is_last fi = Returned (lines, fi') →
  let last := bool_decide (i = length items - 1) in
  let tee := if last then "└── " else "├── " in
  let indent := if last then "    " else "│   " in
  "└── " ≠ "├── " ∧ "    " ≠ "│   " ∧
  (∃ names, listdir fs path = Some names ∧ length items = length names) ∧
  ∃ before fi1 fi2 after,
    for_each (body fuel (length items) prefix) (take i (enumerate items)) fi
      = Returned (before, fi1) ∧
    for_each (body fuel (length items) prefix) (drop (S i) (enumerate items)) fi2
      = Returned (after, fi') ∧
    (kind fs item = RegularFile →
       lines = before ++ [prefix +:+ tee +:+ name item +:+ " ("
                            +:+ format_thousands (count_chars fs item) +:+ ")"]
                      ++ after) ∧
    (kind fs item = Directory →
       ∃ sub, walk fuel item (prefix +:+ indent) last fi1 = Returned (sub, fi2) ∧
              lines = before ++ [prefix +:+ tee +:+ name item +:+ "/"] ++ sub ++ after).
Proof.
  intros Hitems Hi Hign Hwalk.
  apply (walk_directory_at _ _ _ _ _ _ _ _ _ items i item _ _ Hitems Hi) in Hwalk
    as (before & fi1 & here & fi2 & after & Hb & Hhere & Ha & ->).
  intros last tee indent. split; [done|]. split; [done|]. split.
  { pose proof Hitems as (names & Hl & _)%sorted_items_Some. exists names.
    split; [done|]. by eapply sorted_items_length. }
  exists before, fi1, fi2, after. split; [done|]. split; [done|].
  unfold loop_body in Hhere. rewrite decide_False in Hhere by done.
  rewrite eqb_bool_decide in Hhere. fold last tee indent in Hhere.
  unfold is_file, is_dir in Hhere. split.
  - intros Hk. rewrite bool_decide_eq_true_2 in Hhere by done.
    destruct (relative_to item root); [|done]. by simplify_eq.
  - intros Hk. rewrite bool_decide_eq_false_2 in Hhere by congruence.
    rewrite bool_decide_eq_true_2 in Hhere by done.
    destruct (walk fuel item (prefix +:+ indent) last fi1) as [[sub fi3]| |]; [|done..].
    simpl in Hhere. simplify_eq. by exists sub.
Qed.

(** C1, which the code does not keep.  The children with ignored names
    are not drawn, but they keep their positions in [items], and the
    connector and the indentation go by the position in [items].  So
    the last child that is drawn is not drawn as the last one when a
    child with an ignored name is sorted after it.  Let every child
    after position [i] be ignored, and the child at [i] not.  Then the
    lines of the walk end with the lines of that child; its own line
    carries [├── ], not [└── ]; and if it is a directory, the lines of
    its subtree come from the call with the indentation extended by
    [│   ], not by four blanks, and with [is_last = False]. *)
Theorem ignored_sibling_takes_last_place fuel path prefix is_last fi items i item lines fi' :
  sorted_items lower fs path = Some items →
  items !! i = Some item →
  name item ∉ ignore_dirs →
  S i < length items →
  (∀ j sib, i < j → items !! j = Some sib → name sib ∈ ignore_dirs) →
  walk (S fuel) path prefix is_last fi = Returned (lines, fi') →
  "├── " ≠ "└── " ∧ "│   " ≠ "    " ∧
  ∃ before fi1,
    for_each (body fuel (length items) prefix) (take i (enumerate items)) fi
      = Returned (before, fi1) ∧
    (kind fs item = RegularFile →
       lines = before ++ [prefix +:+ "├── " +:+ name item +:+ " ("
                            +:+ format_thousands (count_chars fs item) +:+ ")"]) ∧
    (kind fs item = Directory →
       ∃ sub, walk fuel item (prefix +:+ "│   ") false fi1 = Returned (sub, fi') ∧
              lines = before ++ [prefix +:+ "├── " +:+ name item +:+ "/"] ++ sub).
Proof.
  intros Hitems Hi Hign Hlt Hafter Hwalk.
  pose proof (connector_by_listing_position _ _ _ _ _ _ _ _ _ _ Hitems Hi Hign Hwalk) as H.
  cbv zeta in H. rewrite bool_decide_eq_false_2 in H by lia.
  destruct H as (_ & _ & _ & before & fi1 & fi2 & after & Hb & Ha & Hfile & Hdir).
  assert (for_each (body fuel (length items) prefix) (drop (S i) (enumerate items)) fi2
          = Returned ([], fi2)) as Hnone.
  { apply for_each_nothing. intros [j sib] fi0 Hin.
    apply list_elem_of_lookup in Hin as [k Hk]. rewrite lookup_drop in Hk.
    apply enumerate_lookup in Hk as (y & [= -> ->] & Hy).
    unfold loop_body. rewrite decide_True; [done|]. eapply Hafter; [|done]. lia. }
  rewrite Hnone in Ha. injection Ha as <- <-.
  split; [done|]. split; [done|]. exists before, fi1. split; [done|]. split.
  - intros Hk. rewrite (Hfile Hk). by rewrite app_nil_r.
  - intros Hk. destruct (Hdir Hk) as (sub & Hsub & ->). exists sub.
    split; [done|]. by rewrite app_nil_r.
Qed.

(** C2, amended.  A directory whose listing raises [PermissionError] is
    walked without an error and without a line or an entry: its call
    returns nothing and leaves [file_info] as it was.  When it is a child
    of a listed directory, its parent has yielded the line of the
    directory itself before it tried the listing: the walk of the parent
    is the lines of the children before it, that one line, and the lines
    of the children after it, which go on from the [file_info] the
    children before it left. *)
Theorem permission_error_skips_subtree fuel path prefix is_last fi items i item lines fi' :
  sorted_items lower fs path = Some items →
  items !! i = Some item →
  name item ∉ ignore_dirs →
  kind fs item = Directory →
  listdir fs item = None →
  walk (S fuel) path prefix is_last fi = Returned (lines, fi') →
  let tee := if bool_decide (i = length items - 1) then "└── " else "├── " in
  (∀ fuel' prefix' is_last' fi0,
     walk (S fuel') item prefix' is_last' fi0 = Returned ([], fi0)) ∧
  ∃ before fi1 after,
    for_each (body fuel (length items) prefix) (take i (enumerate items)) fi
      = Returned (before, fi1) ∧
    for_each (body fuel (length items) prefix) (drop (S i) (enumerate items)) fi1
      = Returned (after, fi') ∧
    lines = before ++ [prefix +:+ tee +:+ name item +:+ "/"] ++ after.
Proof.
  intros Hitems Hi Hign Hk Hl Hwalk.
  assert (∀ fuel' prefix' is_last' fi0,
            walk (S fuel') item prefix' is_last' fi0 = Returned ([], fi0)) as Hskip.
  { intros. simpl. by rewrite (proj2 (sorted_items_None lower fs item)). }
  apply (walk_directory_at _ _ _ _ _ _ _ _ _ items i item _ _ Hitems Hi) in Hwalk
    as (before & fi1 & here & fi2 & after & Hb & Hhere & Ha & ->).
  intros tee. split; [done|].
  unfold loop_body in Hhere. rewrite decide_False, eqb_bool_decide in Hhere by done.
  unfold is_file, is_dir in Hhere.
  rewrite bool_decide_eq_false_2, bool_decide_eq_true_2 in Hhere by congruence.
  destruct fuel as [|fuel]; [done|]. rewrite Hskip in Hhere.
  simpl in Hhere. injection Hhere as <- <-. by exists before, fi1, after.
Qed.

(** C4.  The iteration of the loop over a child with an ignored name
    does nothing: it yields no line, leaves [file_info] alone and makes no
    recursive call, whatever the child is and at whatever depth the loop
    runs.  So whatever the walk returns comes from children it visits:
    the walk only appends to [file_info], every entry it appends is the
    entry of a visited regular file, and every line is the line of a
    visited regular file or directory; a visited child lies below the
    directory the walk started from, and neither its own name nor the
    name of a directory on the way down to it is ignored.  And the walk
    does not look into what has an ignored name: it returns the same on
    every file system that differs only below ignored names. *)
Theorem ignored_names_are_skipped fuel path prefix is_last fi lines fi' :
  walk fuel path prefix is_last fi = Returned (lines, fi') →
  (∀ rec n prefix' i item fi0, name item ∈ ignore_dirs →
     loop_body fs ignore_dirs root rec n prefix' i item fi0 = Returned ([], fi0)) ∧
  (∃ new, fi' = fi ++ new ∧ Forall (entry_of fs ignore_dirs root path) new) ∧
  Forall (line_of fs ignore_dirs path) lines ∧
  (∀ item, visits fs ignore_dirs path item →
     (name item ∉ ignore_dirs) ∧
     (∃ names, names ≠ [] ∧ Forall (λ x, x ∉ ignore_dirs) names ∧ item = descend path names)) ∧
  (∀ fs', agree_outside_ignored ignore_dirs fs fs' path →
     walk_directory lower fs' ignore_dirs root fuel path prefix is_last fi
     = Returned (lines, fi')).
Proof.
  intros Hwalk. split_and!.
  - intros rec n prefix' i item fi0 Hign. unfold loop_body. by rewrite decide_True.
  - apply walk_directory_sound in Hwalk as (new & -> & He & _). by exists new.
  - by apply walk_directory_sound in Hwalk as (new & _ & _ & Hl).
  - intros item (names & Hne & Hall & ->)%visits_names. split; [|by exists names].
    destruct names as [|x names _] using rev_ind; [done|].
    apply Forall_app in Hall as [_ [Hx _]%Forall_cons].
    unfold name, descend. simpl. by rewrite app_assoc, last_snoc.
  - intros fs' Hagree. by rewrite <-(walk_directory_agree _ _ _ fs fs').
Qed.

(** C5.  A regular file that cannot be opened or read has the count 0,
    and the iteration of the loop over it ends as for any file: it
    appends the entry of the file, with count 0, and yields the line of
    the file, with [(0)]; so wherever the walk comes to such a file, what
    it returns holds that entry and that line. *)
Theorem unreadable_file_counts_zero item rel :
  read_text fs item = None →
  kind fs item = RegularFile →
  name item ∉ ignore_dirs →
  relative_to item root = Some rel →
  count_chars fs item = 0 ∧
  (∀ rec n prefix i fi,
     loop_body fs ignore_dirs root rec n prefix i item fi
     = Returned ([prefix +:+ (if i =? n - 1 then "└── " else "├── ")
                    +:+ name item +:+ " (0)"],
                 fi ++ [(str item, 0, str rel)])) ∧
  (∀ fuel path prefix is_last fi lines fi',
     visits fs ignore_dirs path item →
     walk fuel path prefix is_last fi = Returned (lines, fi') →
     (str item, 0, str rel) ∈ fi' ∧
     ∃ pre tee, (pre +:+ tee +:+ name item +:+ " (0)") ∈ lines).
Proof.
  intros Hread Hk Hign Hrel.
  assert (count_chars fs item = 0) as Hcount by (unfold count_chars; by rewrite Hread).
  split; [done|]. split.
  - intros rec n prefix i fi. unfold loop_body, is_file.
    by rewrite decide_False, bool_decide_eq_true_2, Hrel, Hcount by done.
  - intros fuel path prefix is_last fi lines fi' Hv Hwalk.
    destruct (walk_directory_complete _ _ _ _ _ _ _ _ _ _ _ _ Hwalk Hv) as [Hf _].
    destruct (Hf Hk) as (rel' & pre & tee & Hrel' & He & Hline).
    rewrite Hcount in He, Hline. simplify_eq. split; [done|]. by exists pre, tee.
Qed.


(** C9.  A child that is neither a regular file nor a directory yields no
    line and appends no entry: the walk of its directory is the lines of
    the children before it followed by those of the children after it.
    It is one of the items all the same: the length of [items], against
    which the position of every child is compared, is the number of listed
    names, and the line of any other child, at position [j], carries
    [└── ] exactly when [j] is the last position of [items]; so when
    the child without a line holds the last position, no line of this
    directory carries [└── ]. *)
Theorem other_kind_counts_as_sibling fuel path prefix is_last fi items i item lines fi' :
  sorted_items lower fs path = Some items →
  items !! i = Some item →
  kind fs item = Other →
  walk (S fuel) path prefix is_last fi = Returned (lines, fi') →
  (∃ before fi1 after,
     for_each (body fuel (length items) prefix) (take i (enumerate items)) fi
       = Returned (before, fi1) ∧
     for_each (body fuel (length items) prefix) (drop (S i) (enumerate items)) fi1
       = Returned (after, fi') ∧
     lines = before ++ after) ∧
  (∃ names, listdir fs path = Some names ∧ length items = length names ∧ i < length names) ∧
  (∀ j other, items !! j = Some other → name other ∉ ignore_dirs → kind fs other ≠ Other →
     j ≠ i ∧
     ∃ suffix,
       (prefix +:+ (if bool_decide (j = length items - 1) then "└── " else "├── ")
          +:+ name other +:+ suffix) ∈ lines).
Proof.
  intros Hitems Hi Hk Hwalk. split; [|split].
  - apply (walk_directory_at _ _ _ _ _ _ _ _ _ items i item _ _ Hitems Hi) in Hwalk
      as (before & fi1 & here & fi2 & after & Hb & Hhere & Ha & ->).
    unfold loop_body, is_file, is_dir in Hhere.
    rewrite !bool_decide_eq_false_2 in Hhere by congruence.
    destruct (decide _); injection Hhere as <- <-; by exists before, fi1, after.
  - pose proof Hitems as (names & Hl & _)%sorted_items_Some. exists names.
    pose proof (sorted_items_length _ _ _ _ _ Hitems Hl) as Hlen.
    split; [done|]. split; [done|]. rewrite <-Hlen. by eapply lookup_lt_Some.
  - intros j other Hj Hign Hko. split; [intros ->; congruence|].
    by eapply walk_directory_child_line.
Qed.

End Claims.

(** ** The walk of one directory, on concrete file systems *)

(** On [ex1]: the directory [Src], at position 2 of the 7 children of the
    root, the first of which is ignored. *)
Example connector_by_listing_position_example :
  ∃ before sub after,
    ex1_lines = before ++ ["├── Src/"] ++ sub ++ after ∧
    sub = ["│   ├── lib/"; "│   └── main.py (1,234)"].
Proof.
  assert ("Src" ∉ default_ignore_dirs) as Hign by (by vm_compute).
  destruct (connector_by_listing_position ascii_lower ex1_fs default_ignore_dirs cwd 3 cwd
    "" true [] ex1_items 2 (joinpath cwd "Src") ex1_lines ex1_file_info
    eq_refl eq_refl Hign eq_refl)
    as (_ & _ & _ & before & fi1 & fi2 & after & Hb & Ha & _ & Hdir).
  destruct (Hdir eq_refl) as (sub & Hsub & Hlines).
  exists before, sub, after. split; [exact Hlines|].
  vm_compute in Hb. injection Hb as <- <-. vm_compute in Hsub. by injection Hsub as <- _.
Qed.

(** A root that holds [a.txt] and a file called [build]: [a.txt] is the
    only child drawn, and [build], which is ignored, is sorted after it.
    The one line of the tree carries [├── ]. *)
Example ignored_sibling_is_counted :
  sorted_items ascii_lower ignored_last_fs cwd
    = Some [joinpath cwd "a.txt"; joinpath cwd "build"] ∧
  get_tree_structure ascii_lower ignored_last_fs 1 cwd None
    = Returned (["├── a.txt (2)"], [("a.txt", 2, "a.txt")]).
Proof. by vm_compute. Qed.

(** A root that holds [lib] and [node_modules]: [lib] is the only
    directory drawn, its line carries [├── ] and the line below it is
    indented by [│   ], with no line of the root to follow. *)
Example ignored_sibling_is_counted_for_indentation :
  sorted_items ascii_lower ignored_last_dir_fs cwd
    = Some [joinpath cwd "lib"; joinpath cwd "node_modules"] ∧
  get_tree_structure ascii_lower ignored_last_dir_fs 2 cwd None
    = Returned (["├── lib/"; "│   └── x.py (7)"], [("lib/x.py", 7, "lib/x.py")]).
Proof. by vm_compute. Qed.

(** On the first of the two: [a.txt], at position 0 of 2. *)
Lemma ignored_sibling_takes_last_place_witness :
  get_tree_structure ascii_lower ignored_last_fs 1 cwd None
    = Returned (["├── a.txt (2)"], [("a.txt", 2, "a.txt")]) ∧
  ∃ before, ["├── a.txt (2)"] = before ++ ["" +:+ "├── " +:+ "a.txt" +:+ " (2)"].
Proof.
  split; [reflexivity|].
  assert ("a.txt" ∉ default_ignore_dirs) as Hign by (by vm_compute).
  assert (∀ j sib, 0 < j → [joinpath cwd "a.txt"; joinpath cwd "build"] !! j = Some sib →
                   name sib ∈ default_ignore_dirs) as Hafter.
  { intros [|[|j]] sib Hj Hsib; [lia| |done]. injection Hsib as <-. by vm_compute. }
  destruct (ignored_sibling_takes_last_place ascii_lower ignored_last_fs default_ignore_dirs
    cwd 0 cwd "" true [] [joinpath cwd "a.txt"; joinpath cwd "build"] 0 (joinpath cwd "a.txt")
    ["├── a.txt (2)"] [("a.txt", 2, "a.txt")] eq_refl eq_refl Hign (le_n 2) Hafter eq_refl)
    as (_ & _ & before & fi1 & _ & Hfile & _).
  exists before. exact (Hfile eq_refl).
Defined.

(** C2, as stated, fails where the directory has a parent in the walk:
    [locked] cannot be listed, and the lines hold its entry. *)
Lemma permission_error_directory_has_line :
  kind locked_fs (joinpath cwd "locked") = Directory ∧
  listdir locked_fs (joinpath cwd "locked") = None ∧
  get_tree_structure ascii_lower locked_fs 2 cwd None = Returned (["└── locked/"], []) ∧
  "└── locked/" = "" +:+ "└── " +:+ name (joinpath cwd "locked") +:+ "/".
Proof. by vm_compute. Qed.

(** On [ex1]: the directory [locked], at position 1. *)
Lemma permission_error_skips_subtree_witness :
  listdir ex1_fs (joinpath cwd "locked") = None ∧
  walk_directory ascii_lower ex1_fs default_ignore_dirs cwd 1 (joinpath cwd "locked")
    "│   " false [] = Returned ([], []) ∧
  ∃ before after, ex1_lines = before ++ ["├── locked/"] ++ after.
Proof.
  assert ("locked" ∉ default_ignore_dirs) as Hign by (by vm_compute).
  destruct (permission_error_skips_subtree ascii_lower ex1_fs default_ignore_dirs cwd 3 cwd
    "" true [] ex1_items 1 (joinpath cwd "locked") ex1_lines ex1_file_info
    eq_refl eq_refl Hign eq_refl eq_refl eq_refl)
    as (Hskip & before & fi1 & after & _ & _ & Hlines).
  split; [reflexivity|]. split; [apply Hskip|]. by exists before, after.
Defined.

(** On [ex1], which holds [.git] and a file called [build]. *)
Lemma ignored_names_are_skipped_witness :
  Forall (line_of ex1_fs default_ignore_dirs cwd) ex1_lines ∧
  ∃ new, ex1_file_info = [] ++ new ∧ Forall (entry_of ex1_fs default_ignore_dirs cwd cwd) new.
Proof.
  destruct (ignored_names_are_skipped ascii_lower ex1_fs default_ignore_dirs cwd 4 cwd
    "" true [] ex1_lines ex1_file_info eq_refl) as (_ & He & Hl & _).
  by split.
Defined.

(** On [ex1]: the file [secret.txt]. *)
Lemma unreadable_file_counts_zero_witness :
  read_text ex1_fs (joinpath cwd "secret.txt") = None ∧
  ("secret.txt", 0, "secret.txt") ∈ ex1_file_info.
Proof.
  assert ("secret.txt" ∉ default_ignore_dirs) as Hign by (by vm_compute).
  destruct (unreadable_file_counts_zero ascii_lower ex1_fs default_ignore_dirs cwd
    (joinpath cwd "secret.txt") (mkPath false ["secret.txt"])
    eq_refl eq_refl Hign eq_refl) as (_ & _ & Hin).
  split; [reflexivity|].
  apply (Hin 4 cwd "" true [] ex1_lines ex1_file_info); [|reflexivity].
  eapply (visits_child ex1_fs default_ignore_dirs cwd _ "secret.txt"); [reflexivity| |done].
  do 6 right. left.
Defined.


(** The socket is the last of the two children: the line of the
    directory before it carries [├── ]. *)
Lemma other_kind_counts_as_sibling_witness :
  sorted_items ascii_lower socket_fs cwd = Some [joinpath cwd "lib"; joinpath cwd "zsock"] ∧
  kind socket_fs (joinpath cwd "zsock") = Other ∧
  get_tree_structure ascii_lower socket_fs 2 cwd None = Returned (["├── lib/"], []) ∧
  ∃ suffix, ("" +:+ "├── " +:+ "lib" +:+ suffix) ∈ ["├── lib/"].
Proof.
  assert ("lib" ∉ default_ignore_dirs) as Hign by (by vm_compute).
  destruct (other_kind_counts_as_sibling ascii_lower socket_fs default_ignore_dirs cwd 1 cwd
    "" true [] [joinpath cwd "lib"; joinpath cwd "zsock"] 1 (joinpath cwd "zsock")
    ["├── lib/"] [] eq_refl eq_refl eq_refl eq_refl) as (_ & _ & Hother).
  destruct (Hother 0 (joinpath cwd "lib") eq_refl Hign) as [_ Hline]; [done|].
  split; [reflexivity|]. split; [reflexivity|]. split; [reflexivity|]. exact Hline.
Defined.

(** ** Termination *)



Example walk_of_ex1 :
  depth ex1 = 3 ∧
  get_tree_structure ascii_lower ex1_fs 2 cwd None = RecursionError ∧
  get_tree_structure ascii_lower ex1_fs 3 cwd None = Returned (ex1_lines, ex1_file_info).
Proof. by vm_compute. Qed.


(** ** The ranking *)

Lemma count_ge_total (x y : FileEntry) : (y.1.2 <=? x.1.2) ∨ (x.1.2 <=? y.1.2).
Proof.
  destruct (Nat.leb_spec (y.1.2) (x.1.2)); [by left|right].
  apply Is_true_true, Nat.leb_le. lia.
Qed.

Lemma count_ge_trans (x y z : FileEntry) :
  (y.1.2 <=? x.1.2) → (z.1.2 <=? y.1.2) → (z.1.2 <=? x.1.2).
Proof.
  rewrite !Is_true_true, !Nat.leb_le. lia.
Qed.

Example sort_file_info_example :
  sort_file_info [("a", 2, "a"); ("b", 11, "b"); ("c", 2, "c"); ("d", 11, "d"); ("e", 0, "e")]
  = [("b", 11, "b"); ("d", 11, "d"); ("a", 2, "a"); ("c", 2, "c"); ("e", 0, "e")].
Proof. by vm_compute. Qed.

(** C7.  [sort_file_info] rearranges the entries so that the count never
    grows from an entry to the next, and keeps the entries of one count in
    the order the traversal left them in. *)
Theorem sort_file_info_descending_stable (file_info : list FileEntry) :
  sort_file_info file_info ≡ₚ file_info ∧
  (∀ i a b, sort_file_info file_info !! i = Some a →
            sort_file_info file_info !! S i = Some b → b.1.2 ≤ a.1.2) ∧
  (∀ c, filter (λ e, e.1.2 = c) (sort_file_info file_info)
        = filter (λ e, e.1.2 = c) file_info).
Proof.
  unfold sort_file_info, sort_reverse. split_and!.
  - apply stable_sort_perm.
  - intros i a b Ha Hb.
    apply Nat.leb_le, Is_true_true.
    eapply (sorted_lookup_le (λ x y : FileEntry, y.1.2 <=? x.1.2)); [|
      |exact Ha|exact Hb].
    + apply stable_sort_sorted; [apply count_ge_total|apply count_ge_trans].
    + lia.
  - intros c. apply (stable_sort_filter _ (λ e : FileEntry, e.1.2 = c)).
    intros y z -> ->. apply Is_true_true, Nat.leb_refl.
Qed.

(** ** The report *)

(** The entries [get_tree_structure] returns are those of regular files
    below the root. *)
Lemma get_tree_structure_entries lower fs fuel root ignore_dirs tree_lines file_info :
  get_tree_structure lower fs fuel root ignore_dirs = Returned (tree_lines, file_info) →
  Forall (λ e, ∃ names, names ≠ [] ∧
            e = (str (descend root names), count_chars fs (descend root names),
                 str (mkPath false names))) file_info.
Proof.
  unfold get_tree_structure. intros (new & -> & He & _)%walk_directory_sound. simpl.
  eapply Forall_impl; [exact He|]. intros e (item & rel & Hv & _ & Hrel & ->).
  apply visits_names in Hv as (names & Hne & _ & ->). exists names. split; [done|].
  rewrite relative_to_descend in Hrel. by injection Hrel as <-.
Qed.

(** C3, amended.  Every line of the second section renders one entry of
    the ranking: its first component, then the count with thousands
    separators in parentheses.  That first component is the text of the
    path the walk built for the file, the root path followed by the names
    that lead to the file, so it is absolute exactly when the root path
    is.  [main] starts from [Path(".")]: there the path is relative, and
    the first component is the same text as the third. *)
Theorem top_files_lines lower fs fuel root ignore_dirs tree_lines file_info :
  get_tree_structure lower fs fuel root ignore_dirs = Returned (tree_lines, file_info) →
  top_section (sort_file_info file_info)
    = join "" (map top_line (take 100 (sort_file_info file_info))) ∧
  Forall (λ e, ∃ names, names ≠ [] ∧
            let item := descend root names in
            e = (str item, count_chars fs item, str (mkPath false names)) ∧
            is_absolute item = is_absolute root ∧
            top_line e = str item +:+ " (" +:+ format_thousands (count_chars fs item)
                           +:+ ")" +:+ nl)
         (take 100 (sort_file_info file_info)) ∧
  (root = cwd → ignore_dirs = None →
     (∃ console, main lower fs fuel
        = Returned {| console := console;
                      written := tree_section tree_lines +:+ top_banner
                                   +:+ top_section (sort_file_info file_info) |}) ∧
     Forall (λ e, e.1.1 = e.2 ∧ ∃ names, e.2 = str (mkPath false names) ∧
                    is_absolute (mkPath false names) = false)
            (take 100 (sort_file_info file_info))).
Proof.
  intros Hget. pose proof (get_tree_structure_entries _ _ _ _ _ _ _ Hget) as He.
  split; [done|]. split.
  - apply Forall_take. unfold sort_file_info, sort_reverse. rewrite stable_sort_perm.
    eapply Forall_impl; [exact He|]. intros e (names & Hne & ->).
    exists names. by split.
  - intros -> ->. split.
    + unfold main. rewrite Hget. simpl. by eexists.
    + apply Forall_take. unfold sort_file_info, sort_reverse. rewrite stable_sort_perm.
      eapply Forall_impl; [exact He|]. intros e (names & Hne & ->). simpl.
      split; [done|]. by exists names.
Qed.

(** C3, as stated, fails for the root [main] uses: the first component
    of the entry, and the path of the line, is the relative [a.txt]. *)
Lemma top_files_path_is_relative :
  get_tree_structure ascii_lower one_file_fs 1 cwd None
    = Returned (["└── a.txt (2)"], [("a.txt", 2, "a.txt")]) ∧
  "a.txt" = str (joinpath cwd "a.txt") ∧
  is_absolute (joinpath cwd "a.txt") = false ∧
  String.prefix "/" "a.txt" = false ∧
  top_section (sort_file_info [("a.txt", 2, "a.txt")]) = "a.txt (2)" +:+ nl ∧
  ∃ console, main ascii_lower one_file_fs 1
    = Returned {| console := console;
                  written := tree_section ["└── a.txt (2)"] +:+ top_banner
                               +:+ "a.txt (2)" +:+ nl |}.
Proof. split_and!; [by vm_compute..|]. eexists. by vm_compute. Qed.

(** On [ex1], walked from [Path(".")]. *)
Lemma top_files_lines_witness :
  Forall (λ e : FileEntry, e.1.1 = e.2) (take 100 (sort_file_info ex1_file_info)).
Proof.
  destruct (top_files_lines ascii_lower ex1_fs 4 cwd None ex1_lines ex1_file_info eq_refl)
    as (_ & _ & Hmain).
  destruct (Hmain eq_refl eq_refl) as [_ Hrel].
  eapply Forall_impl; [exact Hrel|]. by intros e [? _].
Defined.

Lemma banner_80 : str_mul "=" 80 = banner ∧ String.length banner = 80.
Proof. by vm_compute. Qed.

(** C8.  When the root directory is empty, [main] writes the first
    banner with its title, the line of the root, no line of the tree,
    the second banner with its title and nothing below it, and prints 0
    as the number of files. *)
Theorem empty_root_report lower fs fuel :
  listdir fs cwd = Some [] →
  get_tree_structure lower fs (S fuel) cwd None = Returned ([], []) ∧
  main lower fs (S fuel) = Returned {|
    console := [ "Генерация tree-структуры...";
                 "Сортировка файлов по размеру...";
                 "Запись в файл...";
                 "Готово! Результат сохранен в repo_structure.txt";
                 "Всего файлов обработано: 0" ];
    written :=
      banner +:+ nl
      +:+ "TREE СТРУКТУРА РЕПОЗИТОРИЯ" +:+ nl
      +:+ banner +:+ nl
      +:+ nl
      +:+ "." +:+ nl
      +:+ nl
      +:+ banner +:+ nl
      +:+ "ТОП 100 ФАЙЛОВ ПО КОЛИЧЕСТВУ СИМВОЛОВ (от больших к маленьким)" +:+ nl
      +:+ banner +:+ nl
      +:+ nl |} ∧
  String.length banner = 80 ∧
  tree_section [] = banner +:+ nl +:+ "TREE СТРУКТУРА РЕПОЗИТОРИЯ" +:+ nl +:+ banner
                      +:+ nl +:+ nl +:+ "." +:+ nl ∧
  top_section (sort_file_info []) = "".
Proof.
  intros Hl.
  assert (get_tree_structure lower fs (S fuel) cwd None = Returned ([], [])) as Hget.
  { unfold get_tree_structure. simpl. unfold sorted_items, iterdir. by rewrite Hl. }
  split; [done|]. split; [|by vm_compute].
  unfold main. rewrite Hget. by vm_compute.
Qed.

(** On the empty root. *)
Lemma empty_root_report_witness :
  listdir empty_fs cwd = Some [] ∧
  get_tree_structure ascii_lower empty_fs 1 cwd None = Returned ([], []).
Proof.
  split; [reflexivity|].
  apply (empty_root_report ascii_lower empty_fs 0 eq_refl).
Defined.

(** * Further properties of the code *)

(** ** The loop, once more *)

Lemma for_each_not_raised {A} (body : A → list FileEntry → outcome walked) l e :
  (∀ x fi, x ∈ l → body x fi ≠ Raised e) → ∀ fi, for_each body l fi ≠ Raised e.
Proof.
  induction l as [|x l IH]; intros Hb fi; [done|]. simpl.
  destruct (body x fi) as [[a fi1]| |] eqn:Hx; simpl; [| |done].
  - destruct (for_each body l fi1) as [[b fi2]| |] eqn:Hl; simpl; [done| |done].
    intros _. destruct e, e0.
    exact (IH (λ y fi0 Hy, Hb y fi0 (list_elem_of_further _ _ _ Hy)) fi1 Hl).
  - intros _. destruct e, e0. by apply (Hb x fi); [left|].
Qed.

(** What a call leaves when it is run on [fi] instead of the empty list *)
Definition onto (fi : list FileEntry) (o : outcome walked) : outcome walked :=
  match o with
  | Returned (lines, new) => Returned (lines, fi ++ new)
  | Raised e => Raised e
  | RecursionError => RecursionError
  end.

Lemma for_each_onto {A} (body : A → list FileEntry → outcome walked) l :
  (∀ x fi, x ∈ l → body x fi = onto fi (body x [])) →
  ∀ fi, for_each body l fi = onto fi (for_each body l []).
Proof.
  induction l as [|x l IH]; intros Hb fi; simpl.
  { by rewrite app_nil_r. }
  assert (∀ fi0, for_each body l fi0 = onto fi0 (for_each body l [])) as Hl.
  { apply IH. intros y fi0 Hy. apply Hb. by right. }
  rewrite (Hb x fi) by by left. destruct (body x []) as [[a n1]| |]; simpl; [|done..].
  rewrite (Hl (fi ++ n1)), (Hl n1).
  destruct (for_each body l []) as [[b n2]| |]; simpl; [|done..].
  by rewrite app_assoc.
Qed.

Section MoreWalkFacts.
Variable lower : string → string.
Variable fs : FS.
Variable ignore_dirs : gset string.
Variable root : Path.

Abbreviation walk := (walk_directory lower fs ignore_dirs root).

Lemma walk_directory_not_raised fuel names0 prefix is_last fi e :
  walk fuel (descend root names0) prefix is_last fi ≠ Raised e.
Proof.
  revert names0 prefix is_last fi.
  induction fuel as [|fuel IH]; intros names0 prefix is_last fi; [done|]. simpl.
  destruct (sorted_items lower fs (descend root names0)) as [items|] eqn:Hitems; [|done].
  apply for_each_not_raised. intros [i item] fi0 Hin.
  apply enumerate_elem, list_elem_of_lookup_2 in Hin.
  apply (sorted_items_elem _ _ _ _ _ Hitems) in Hin as (names & x & _ & _ & ->).
  replace (joinpath (descend root names0) x) with (descend root (names0 ++ [x]))
    by (unfold joinpath, descend; simpl; by rewrite app_assoc).
  unfold loop_body. destruct (decide _); [done|].
  destruct (is_file fs _); [by rewrite relative_to_descend|].
  destruct (is_dir fs _); [|done].
  destruct (walk fuel _ _ _ fi0) as [[sub fi2]| |] eqn:Hsub; simpl; [done| |done].
  intros _. destruct e, e0. by apply IH in Hsub.
Qed.

Lemma walk_directory_onto fuel path prefix is_last fi :
  walk fuel path prefix is_last fi = onto fi (walk fuel path prefix is_last []).
Proof.
  revert path prefix is_last fi.
  induction fuel as [|fuel IH]; intros path prefix is_last fi; [done|]. simpl.
  destruct (sorted_items lower fs path) as [items|]; [|simpl; by rewrite app_nil_r].
  apply for_each_onto. intros [i item] fi0 _. unfold loop_body.
  destruct (decide _); [simpl; by rewrite app_nil_r|].
  destruct (is_file fs item); [by destruct (relative_to item root)|].
  destruct (is_dir fs item); [|simpl; by rewrite app_nil_r].
  rewrite (IH item _ _ fi0). by destruct (walk fuel item _ _ []) as [[sub new]| |].
Qed.
End MoreWalkFacts.

(** ** Exceptions and the shared list *)

(** X1.  [relative_to] never raises in a run: every item the walk comes
    to lies below the root, so neither [get_tree_structure] nor [main]
    ends with [ValueError]. *)
Theorem relative_to_never_raises lower fs fuel root ignore_dirs :
  (∀ e, get_tree_structure lower fs fuel root ignore_dirs ≠ Raised e) ∧
  (∀ e, main lower fs fuel ≠ Raised e).
Proof.
  assert (∀ root' ign e, get_tree_structure lower fs fuel root' ign ≠ Raised e) as H.
  { intros root' ign e. unfold get_tree_structure.
    rewrite <-(descend_nil root') at 2. apply walk_directory_not_raised. }
  split; [apply H|]. intros e. unfold main.
  destruct (get_tree_structure lower fs fuel cwd None) as [[lines fi]| |] eqn:Hget;
    simpl; [done| |done].
  intros _. destruct e, e0. by apply H in Hget.
Qed.

(** X2.  [walk_directory] only appends to [file_info]: a call on a list
    that holds entries already returns the lines it returns on the empty
    list, and leaves the entries it found after the ones that were
    there, which it neither drops nor reorders. *)
Theorem walk_directory_only_appends lower fs ignore_dirs root fuel path prefix is_last
    fi lines fi' :
  walk_directory lower fs ignore_dirs root fuel path prefix is_last fi = Returned (lines, fi') ↔
  ∃ new, fi' = fi ++ new ∧
    walk_directory lower fs ignore_dirs root fuel path prefix is_last [] = Returned (lines, new).
Proof.
  rewrite walk_directory_onto.
  destruct (walk_directory lower fs ignore_dirs root fuel path prefix is_last [])
    as [[lines0 new0]| |]; simpl.
  - split.
    + intros [= <- <-]. by exists new0.
    + intros (new & -> & [= <- <-]). done.
  - split; [done|]. by intros (? & _ & ?).
  - split; [done|]. by intros (? & _ & ?).
Qed.

(** ** Directories that show nothing *)

(** X3.  A directory that can be listed and holds nothing to show (it is
    empty, or each of its children has an ignored name or is neither a
    regular file nor a directory) yields no line and leaves [file_info]
    as it was. *)
Theorem nothing_to_show_yields_nothing lower fs ignore_dirs root fuel path prefix is_last
    fi names :
  listdir fs path = Some names →
  (∀ x, x ∈ names → x ∈ ignore_dirs ∨ kind fs (joinpath path x) = Other) →
  walk_directory lower fs ignore_dirs root (S fuel) path prefix is_last fi = Returned ([], fi).
Proof.
  intros Hl Hnames. simpl.
  destruct (sorted_items lower fs path) as [items|] eqn:Hitems; [|done].
  apply for_each_nothing. intros [i item] fi0 Hin.
  apply enumerate_elem, list_elem_of_lookup_2 in Hin.
  apply (sorted_items_elem _ _ _ _ _ Hitems) in Hin as (names' & x & Hl' & Hx & ->).
  assert (names' = names) as -> by congruence.
  unfold loop_body. rewrite name_joinpath.
  destruct (decide (x ∈ ignore_dirs)) as [|Hi]; [done|].
  destruct (Hnames x Hx) as [|Hk]; [done|].
  unfold is_file, is_dir. by rewrite !bool_decide_eq_false_2 by congruence.
Qed.

(** A root that holds an ignored directory and a socket *)
Definition hidden_fs : FS :=
  fs_of_tree (TDir (Some [(".git", TDir (Some [("c.txt", TFile (text 5))])); ("sock", TOther)])).

Lemma nothing_to_show_yields_nothing_witness :
  get_tree_structure ascii_lower hidden_fs 1 cwd None = Returned ([], []).
Proof.
  apply (nothing_to_show_yields_nothing ascii_lower hidden_fs default_ignore_dirs cwd 0 cwd
           "" true [] [".git"; "sock"] eq_refl).
  intros x [->|[->|Hx%elem_of_nil]%elem_of_cons]%elem_of_cons; [left|right|done]; by vm_compute.
Defined.

(** ** Nothing that is visited is lost *)

(** X4.  Whatever the walk from the root reaches through listed names
    that are not ignored is in what [get_tree_structure] returns: a
    regular file has its entry, with its count and its path relative to
    the root, and its line; a directory has its line. *)
Theorem visited_children_are_reported lower fs fuel root ignore_dirs tree_lines file_info item :
  get_tree_structure lower fs fuel root ignore_dirs = Returned (tree_lines, file_info) →
  visits fs (default default_ignore_dirs ignore_dirs) root item →
  (kind fs item = RegularFile →
     ∃ rel pre tee, relative_to item root = Some rel ∧
       (str item, count_chars fs item, str rel) ∈ file_info ∧
       (pre +:+ tee +:+ name item +:+ " (" +:+ format_thousands (count_chars fs item)
          +:+ ")") ∈ tree_lines) ∧
  (kind fs item = Directory →
     ∃ pre tee, (pre +:+ tee +:+ name item +:+ "/") ∈ tree_lines).
Proof.
  unfold get_tree_structure. intros Hwalk Hv.
  by eapply walk_directory_complete.
Qed.

Lemma visited_children_are_reported_witness :
  ∃ pre tee, (pre +:+ tee +:+ "main.py" +:+ " (1,234)") ∈ ex1_lines.
Proof.
  assert (visits ex1_fs default_ignore_dirs cwd (joinpath (joinpath cwd "Src") "main.py")) as Hv.
  { eapply (visits_below ex1_fs default_ignore_dirs cwd _ "Src");
      [reflexivity|do 3 right; left|by vm_compute|reflexivity|].
    eapply (visits_child ex1_fs default_ignore_dirs _ _ "main.py");
      [reflexivity|left|by vm_compute]. }
  destruct (visited_children_are_reported ascii_lower ex1_fs 4 cwd None ex1_lines ex1_file_info
              _ eq_refl Hv) as [Hfile _].
  destruct (Hfile eq_refl) as (rel & pre & tee & _ & _ & Hline). by exists pre, tee.
Defined.

(** ** More on the two sorts *)

Lemma stable_sort_of_sorted {A} (le : A → A → bool) l :
  StronglySorted le l → stable_sort le l = l.
Proof.
  induction 1 as [|x l Hl IH Hx]; simpl; [done|]. rewrite IH.
  destruct Hx as [|y l' Hxy _]; simpl; [done|].
  by destruct (le x y).
Qed.

(** X5.  Ranking a list that is ranked already changes nothing. *)
Theorem sort_file_info_idempotent (file_info : list FileEntry) :
  sort_file_info (sort_file_info file_info) = sort_file_info file_info.
Proof.
  unfold sort_file_info, sort_reverse. apply stable_sort_of_sorted.
  apply stable_sort_sorted; [apply count_ge_total|apply count_ge_trans].
Qed.

(** X6.  The second section of the report lists 100 entries, or all of
    them when there are fewer; no entry it leaves out has a greater count
    than one it lists; and the number [main] prints is the number of all
    the entries, listed or not. *)
Theorem top_section_lists_the_largest lower fs fuel r :
  main lower fs fuel = Returned r →
  ∃ tree_lines file_info,
    get_tree_structure lower fs fuel cwd None = Returned (tree_lines, file_info) ∧
    written r = tree_section tree_lines +:+ top_banner
                  +:+ join "" (map top_line (take 100 (sort_file_info file_info))) ∧
    length (take 100 (sort_file_info file_info)) = 100 `min` length file_info ∧
    (∀ e e', e ∈ take 100 (sort_file_info file_info) →
             e' ∈ drop 100 (sort_file_info file_info) → e'.1.2 ≤ e.1.2) ∧
    last (console r) = Some ("Всего файлов обработано: " +:+ format_int (length file_info)).
Proof.
  unfold main. intros Hmain.
  destruct (get_tree_structure lower fs fuel cwd None) as [[tree_lines file_info]| |];
    [|done..].
  simpl in Hmain. injection Hmain as <-. exists tree_lines, file_info.
  assert (length (sort_file_info file_info) = length file_info) as Hlen
    by apply stable_sort_length.
  split_and!; [done|done| | |].
  - by rewrite length_take, Hlen.
  - intros e e' (i & Hi & Hlt)%elem_of_take (j & Hj)%list_elem_of_lookup.
    rewrite lookup_drop in Hj. apply Nat.leb_le, Is_true_true.
    eapply (sorted_lookup_le (λ x y : FileEntry, y.1.2 <=? x.1.2)); [|
      |exact Hi|exact Hj].
    + apply stable_sort_sorted; [apply count_ge_total|apply count_ge_trans].
    + lia.
  - simpl. by rewrite Hlen.
Qed.

Lemma top_section_lists_the_largest_witness :
  length (take 100 (sort_file_info ex1_file_info)) = 100 `min` length ex1_file_info.
Proof.
  destruct (top_section_lists_the_largest ascii_lower ex1_fs 4
              {| console := [ "Генерация tree-структуры...";
                              "Сортировка файлов по размеру...";
                              "Запись в файл...";
                              "Готово! Результат сохранен в repo_structure.txt";
                              "Всего файлов обработано: 4" ];
                 written := report_text ex1_lines (sort_file_info ex1_file_info) |}
              eq_refl) as (tree_lines & file_info & Hget & _ & Hlen & _).
  vm_compute in Hget. injection Hget as <- <-. exact Hlen.
Defined.

(** X7.  The sort of the children is stable: children with the same
    key, that is of the same group and with the same lower-cased name,
    are gone through in the order in which the listing named them. *)
Theorem equal_keys_keep_listing_order lower fs path items :
  sorted_items lower fs path = Some items →
  ∃ names, listdir fs path = Some names ∧
    ∀ k, filter (λ x, sort_key lower fs x = k) items
         = filter (λ x, sort_key lower fs x = k) (map (joinpath path) names).
Proof.
  intros (names & Hl & ->)%sorted_items_Some. exists names. split; [done|].
  intros k. apply sorted_stable.
Qed.

(** A root whose listing names [b.TXT] before [B.txt] *)
Definition case_fs : FS :=
  fs_of_tree (TDir (Some [("b.TXT", TFile (text 1)); ("a.txt", TFile (text 1));
                          ("B.txt", TFile (text 1))])).

Lemma equal_keys_keep_listing_order_witness :
  sorted_items ascii_lower case_fs cwd
    = Some (map (joinpath cwd) ["a.txt"; "b.TXT"; "B.txt"]) ∧
  filter (λ x, sort_key ascii_lower case_fs x = (true, "b.txt"))
         (map (joinpath cwd) ["a.txt"; "b.TXT"; "B.txt"])
    = map (joinpath cwd) ["b.TXT"; "B.txt"].
Proof.
  split; [reflexivity|].
  destruct (equal_keys_keep_listing_order ascii_lower case_fs cwd
              (map (joinpath cwd) ["a.txt"; "b.TXT"; "B.txt"]) eq_refl)
    as (names & Hl & Hk).
  vm_compute in Hl. injection Hl as <-. rewrite Hk. by vm_compute.
Defined.

(** ** The order of the listing *)

Lemma key_le_antisym k1 k2 : key_le k1 k2 → key_le k2 k1 → k1 = k2.
Proof.
  unfold key_le. destruct k1 as [[] s1], k2 as [[] s2]; simpl; try done;
    intros H1 H2; f_equal; by apply (anti_symm String.le).
Qed.

(** When no two elements have the same key, [sorted] gives the same list
    for every order of its input. *)
Lemma sorted_of_permutation {A} (key : A → bool * string) l1 l2 :
  l1 ≡ₚ l2 →
  (∀ x y, x ∈ l1 → y ∈ l1 → key x = key y → x = y) →
  sorted key l1 = sorted key l2.
Proof.
  intros Hperm Hinj.
  apply (StronglySorted_unique_strong (λ x y, key_le (key x) (key y))).
  - intros x y Hx Hy Hxy Hyx. rewrite sorted_perm in Hx. rewrite sorted_perm, <-Hperm in Hy.
    apply Hinj; [done..|]. by apply key_le_antisym.
  - apply stable_sort_sorted; [intros a b; apply key_le_total|intros a b c; apply key_le_trans].
  - apply stable_sort_sorted; [intros a b; apply key_le_total|intros a b c; apply key_le_trans].
  - by rewrite !sorted_perm.
Qed.

(** Two file systems that hold the same, but whose listings may name the
    children of a directory in different orders *)
Definition same_up_to_listing_order (fs1 fs2 : FS) : Prop :=
  ∀ p, kind fs1 p = kind fs2 p ∧ read_text fs1 p = read_text fs2 p ∧
       match listdir fs1 p, listdir fs2 p with
       | Some l1, Some l2 => l1 ≡ₚ l2
       | None, None => True
       | _, _ => False
       end.

(** No directory holds two children of the same group whose names are
    the same once lower-cased. *)
Definition distinct_keys (lower : string → string) (fs : FS) : Prop :=
  ∀ p names x y, listdir fs p = Some names → x ∈ names → y ∈ names →
    sort_key lower fs (joinpath p x) = sort_key lower fs (joinpath p y) → x = y.

Lemma walk_directory_listing_order lower fs1 fs2 ignore_dirs root fuel path prefix is_last fi :
  same_up_to_listing_order fs1 fs2 →
  distinct_keys lower fs1 →
  walk_directory lower fs1 ignore_dirs root fuel path prefix is_last fi
  = walk_directory lower fs2 ignore_dirs root fuel path prefix is_last fi.
Proof.
  intros Hsame Hdist. revert path prefix is_last fi.
  induction fuel as [|fuel IH]; intros path prefix is_last fi; [done|].
  assert (sorted_items lower fs1 path = sorted_items lower fs2 path) as Hitems.
  { unfold sorted_items, iterdir. destruct (Hsame path) as (_ & _ & Hl).
    destruct (listdir fs1 path) as [l1|] eqn:Hl1, (listdir fs2 path) as [l2|]; try done.
    simpl. f_equal.
    trans (sorted (sort_key lower fs1) (map (joinpath path) l2)).
    - apply sorted_of_permutation; [by apply fmap_Permutation|].
      intros ? ? (x & -> & Hx)%list_elem_of_fmap (y & -> & Hy)%list_elem_of_fmap Hk.
      f_equal. by eapply Hdist.
    - apply sorted_ext. intros x _. unfold sort_key, is_file.
      by destruct (Hsame x) as (-> & _). }
  simpl. rewrite Hitems. destruct (sorted_items lower fs2 path) as [items|]; [|done].
  apply for_each_ext. intros [i item] fi0 _. unfold loop_body, is_file, is_dir, count_chars.
  destruct (Hsame item) as (-> & -> & _).
  destruct (decide _); [done|]. destruct (bool_decide _); [done|].
  destruct (bool_decide _); [|done]. by rewrite IH.
Qed.

(** X8.  The report does not depend on the order in which the listings
    name the children, as long as no directory holds two children of the
    same group with the same lower-cased name: on two file systems that
    differ in that order only, [get_tree_structure] and [main] end the
    same. *)
Theorem listing_order_does_not_matter lower fs1 fs2 fuel root ignore_dirs :
  same_up_to_listing_order fs1 fs2 →
  distinct_keys lower fs1 →
  get_tree_structure lower fs1 fuel root ignore_dirs
    = get_tree_structure lower fs2 fuel root ignore_dirs ∧
  main lower fs1 fuel = main lower fs2 fuel.
Proof.
  intros Hsame Hdist.
  assert (∀ root' ign, get_tree_structure lower fs1 fuel root' ign
                       = get_tree_structure lower fs2 fuel root' ign) as H.
  { intros. by apply walk_directory_listing_order. }
  split; [apply H|]. unfold main. by rewrite H.
Qed.

(** A root that holds the regular files [names], listed in that order *)
Definition listing_fs (names : list string) : FS := {|
  listdir p := if decide (p = cwd) then Some names else None;
  kind p := RegularFile;
  read_text p := Some [] |}.

Lemma listing_order_does_not_matter_witness :
  main ascii_lower (listing_fs ["b"; "a"]) 1 = main ascii_lower (listing_fs ["a"; "b"]) 1.
Proof.
  apply (listing_order_does_not_matter ascii_lower (listing_fs ["b"; "a"])
           (listing_fs ["a"; "b"]) 1 cwd None).
  - intros p. split; [done|]. split; [done|]. simpl.
    destruct (decide (p = cwd)); [apply Permutation_swap|done].
  - intros p names x y Hl Hx Hy Hk. simpl in Hl.
    destruct (decide (p = cwd)) as [->|]; [|done]. injection Hl as <-.
    apply elem_of_cons in Hx as [->|Hx]; apply elem_of_cons in Hy as [->|Hy];
      repeat match goal with
             | H : _ ∈ [_] |- _ => apply list_elem_of_singleton in H as ->
             end; try done; by vm_compute in Hk.
Defined.

(** ** A directory without subdirectories *)

Lemma for_each_map_filter {A} (body : A → list FileEntry → outcome walked)
    (Q : A → Prop) `{!∀ x, Decision (Q x)} (f : A → string) (g : A → FileEntry) l :
  (∀ x fi, x ∈ l →
     body x fi = if decide (Q x) then Returned ([f x], fi ++ [g x]) else Returned ([], fi)) →
  ∀ fi, for_each body l fi = Returned (f <$> filter Q l, fi ++ (g <$> filter Q l)).
Proof.
  induction l as [|x l IH]; intros Hb fi; simpl.
  { by rewrite app_nil_r. }
  rewrite (Hb x fi) by by left. rewrite filter_cons.
  assert (∀ fi0, for_each body l fi0
                 = Returned (f <$> filter Q l, fi0 ++ (g <$> filter Q l))) as Hl.
  { apply IH. intros y fi0 Hy. apply Hb. by right. }
  destruct (decide (Q x)); simpl; rewrite Hl; simpl; [|done].
  by rewrite <-app_assoc.
Qed.

(** X9.  In a directory below the root that can be listed and in which
    every directory, if there is one, has an ignored name, the walk
    yields one line and appends one entry for each child that is a
    regular file with a name that is not ignored, and for no other, in
    the order of the sorted listing; the connector of a line follows the
    position of the child among all the children. *)
Theorem flat_directory lower fs ignore_dirs root fuel names0 prefix is_last fi items :
  sorted_items lower fs (descend root names0) = Some items →
  (∀ item, item ∈ items → name item ∈ ignore_dirs ∨ kind fs item ≠ Directory) →
  let shown := filter (λ p : nat * Path, (name p.2 ∉ ignore_dirs) ∧ kind fs p.2 = RegularFile)
                      (enumerate items) in
  walk_directory lower fs ignore_dirs root (S fuel) (descend root names0) prefix is_last fi
  = Returned
      ((λ p : nat * Path,
          prefix +:+ (if p.1 =? length items - 1 then "└── " else "├── ") +:+ name p.2
            +:+ " (" +:+ format_thousands (count_chars fs p.2) +:+ ")") <$> shown,
       fi ++ ((λ p : nat * Path,
                 (str p.2, count_chars fs p.2, str (mkPath false (names0 ++ [name p.2]))))
              <$> shown)).
Proof.
  intros Hitems Hflat shown. simpl. rewrite Hitems.
  apply (for_each_map_filter _
           (λ p : nat * Path, (name p.2 ∉ ignore_dirs) ∧ kind fs p.2 = RegularFile)).
  intros [i item] fi0 Hin. apply enumerate_elem, list_elem_of_lookup_2 in Hin.
  pose proof (Hflat item Hin) as Hdir.
  apply (sorted_items_elem _ _ _ _ _ Hitems) in Hin as (names & x & _ & _ & ->).
  unfold loop_body, is_file, is_dir. simpl. rewrite name_joinpath in *.
  destruct (decide (x ∈ ignore_dirs)) as [Hi|Hi].
  { rewrite decide_False; [done|]. by intros [? _]. }
  destruct Hdir as [|Hdir]; [done|].
  destruct (decide (kind fs (joinpath (descend root names0) x) = RegularFile)) as [Hk|Hk].
  - rewrite bool_decide_eq_true_2, decide_True by done.
    replace (joinpath (descend root names0) x) with (descend root (names0 ++ [x]))
      by (unfold joinpath, descend; simpl; by rewrite app_assoc).
    by rewrite relative_to_descend.
  - rewrite !bool_decide_eq_false_2 by done. rewrite decide_False; [done|]. by intros [_ ?].
Qed.

Lemma flat_directory_witness :
  get_tree_structure ascii_lower case_fs 1 cwd None
  = Returned (["├── a.txt (1)"; "├── b.TXT (1)"; "└── B.txt (1)"],
              [("a.txt", 1, "a.txt"); ("b.TXT", 1, "b.TXT"); ("B.txt", 1, "B.txt")]).
Proof.
  apply (flat_directory ascii_lower case_fs default_ignore_dirs cwd 0 [] "" true []
           (map (joinpath cwd) ["a.txt"; "b.TXT"; "B.txt"]) eq_refl).
  intros item Hin. right.
  repeat (apply elem_of_cons in Hin as [->|Hin]; [by vm_compute|]).
  by apply elem_of_nil in Hin.
Defined.

(** ** Indentation *)

Lemma string_app_assoc (a b c : string) : (a +:+ b) +:+ c = a +:+ (b +:+ c).
Proof.
  induction a as [|x a IH]; [done|].
  change (String x ((a +:+ b) +:+ c) = String x (a +:+ (b +:+ c))). by rewrite IH.
Qed.

Lemma join_empty_cons (u : string) us (s : string) :
  join "" (u :: us) +:+ s = u +:+ (join "" us +:+ s).
Proof.
  destruct us as [|u' us]; simpl; [done|].
  change (u +:+ match us with [] => u' | _ :: _ => u' +:+ join "" us end)
    with (u +:+ join "" (u' :: us)).
  by rewrite string_app_assoc.
Qed.

(** One level of indentation *)
Definition indent_unit (u : string) : Prop := u = "    " ∨ u = "│   ".

(** [line_at fs ignore_dirs path prefix line]: [line] is the line of a
    child that the walk of [path] visits [length names] levels down, and
    it is made of the [prefix] of the walk, one unit of indentation for
    each level but the last, the connector, the name of the child and its
    ending. *)
Definition line_at (fs : FS) (ignore_dirs : gset string) (path : Path) (prefix line : string)
    : Prop :=
  ∃ names units tee,
    visits fs ignore_dirs path (descend path names) ∧
    length names = S (length units) ∧
    Forall indent_unit units ∧
    (tee = "└── " ∨ tee = "├── ") ∧
    ((kind fs (descend path names) = RegularFile ∧
      line = prefix +:+ join "" units +:+ tee +:+ name (descend path names) +:+ " ("
               +:+ format_thousands (count_chars fs (descend path names)) +:+ ")") ∨
     (kind fs (descend path names) = Directory ∧
      line = prefix +:+ join "" units +:+ tee +:+ name (descend path names) +:+ "/")).

Lemma line_at_below fs ignore_dirs path names x prefix u line :
  listdir fs path = Some names → x ∈ names → x ∉ ignore_dirs →
  kind fs (joinpath path x) = Directory →
  indent_unit u →
  line_at fs ignore_dirs (joinpath path x) (prefix +:+ u) line →
  line_at fs ignore_dirs path prefix line.
Proof.
  intros Hl Hx Hi Hk Hu (names' & units & tee & Hv & Hlen & Hunits & Htee & Hline).
  exists (x :: names'), (u :: units), tee. rewrite descend_joinpath in *.
  split_and!; [by eapply visits_below|simpl; lia|by constructor|done|].
  rewrite !string_app_assoc in Hline. by rewrite !join_empty_cons.
Qed.

(** X10.  Every line of a walk starts with the prefix the walk was called
    with; then comes one unit of indentation, four blanks or a bar and
    three blanks, for each directory between the walked directory and
    the child, then the connector and the name of the child, followed by
    [/] for a directory and by the count in parentheses for a regular
    file. *)
Theorem lines_are_indented_by_depth lower fs ignore_dirs root fuel path prefix is_last
    fi lines fi' :
  walk_directory lower fs ignore_dirs root fuel path prefix is_last fi = Returned (lines, fi') →
  Forall (line_at fs ignore_dirs path prefix) lines.
Proof.
  revert path prefix is_last fi lines fi'.
  induction fuel as [|fuel IH]; intros path prefix is_last fi lines fi' H; [done|].
  simpl in H. destruct (sorted_items lower fs path) as [items|] eqn:Hitems.
  2:{ by injection H as <- <-. }
  cut (∃ new, fi' = fi ++ new ∧ Forall (λ _, True) new
              ∧ Forall (line_at fs ignore_dirs path prefix) lines).
  { by intros (_ & _ & _ & ?). }
  revert H. apply for_each_inv. intros [i item] fi0 a fi1 Hin Hbody.
  apply enumerate_elem, list_elem_of_lookup_2 in Hin.
  apply (sorted_items_elem _ _ _ _ _ Hitems) in Hin as (names & x & Hl & Hx & ->).
  pose proof (loop_body_extends _ _ _ _ _ _ _ _ _ _ _ _ Hbody) as (new & ->).
  exists new. split; [done|]. split; [by apply Forall_true|].
  assert (∀ tee ending,
            (tee = "└── " ∨ tee = "├── ") →
            (kind fs (joinpath path x) = RegularFile ∧
               ending = " (" +:+ format_thousands (count_chars fs (joinpath path x)) +:+ ")" ∨
             kind fs (joinpath path x) = Directory ∧ ending = "/") →
            x ∉ ignore_dirs →
            line_at fs ignore_dirs path prefix (prefix +:+ tee +:+ x +:+ ending)) as Hown.
  { intros tee ending Htee Hending Hi. exists [x], [], tee.
    change (descend path [x]) with (joinpath path x). rewrite name_joinpath.
    split_and!; [by eapply visits_child|done|constructor|done|].
    destruct Hending as [[Hk ->]|[Hk ->]]; [by left|by right]. }
  unfold loop_body in Hbody. rewrite name_joinpath in Hbody.
  destruct (decide (x ∈ ignore_dirs)) as [|Hi]; [by injection Hbody as <- _|].
  unfold is_file, is_dir in Hbody.
  destruct (decide (kind fs (joinpath path x) = RegularFile)) as [Hk|Hk].
  - rewrite bool_decide_eq_true_2 in Hbody by done.
    destruct (relative_to (joinpath path x) root); [|done]. injection Hbody as <- _.
    repeat constructor. apply Hown; [destruct (i =? _); auto|by left|done].
  - rewrite bool_decide_eq_false_2 in Hbody by done.
    destruct (decide (kind fs (joinpath path x) = Directory)) as [Hd|Hd].
    + rewrite bool_decide_eq_true_2 in Hbody by done.
      destruct (walk_directory _ _ _ _ fuel _ _ _ fi0) as [[sub fi2]| |] eqn:Hsub; [|done..].
      simpl in Hbody. injection Hbody as <- _. constructor.
      * apply Hown; [destruct (i =? _); auto|by right|done].
      * apply IH in Hsub. eapply Forall_impl; [exact Hsub|]. intros l.
        eapply line_at_below; [done..|]. unfold indent_unit. destruct (i =? _); auto.
    + rewrite bool_decide_eq_false_2 in Hbody by done. by injection Hbody as <- _.
Qed.

Lemma lines_are_indented_by_depth_witness :
  Forall (line_at ex1_fs default_ignore_dirs cwd "") ex1_lines.
Proof.
  apply (lines_are_indented_by_depth ascii_lower ex1_fs default_ignore_dirs cwd 4 cwd ""
           true [] ex1_lines ex1_file_info eq_refl).
Defined.

(** ** Thousands separators *)

Lemma pretty_N_char_no_comma x : pretty_N_char x ≠ ","%char.
Proof. unfold pretty_N_char. by repeat case_match. Qed.

Lemma pretty_N_go_no_comma x s :
  Forall (λ c, c ≠ ","%char) (String.list_ascii_of_string s) →
  Forall (λ c, c ≠ ","%char) (String.list_ascii_of_string (pretty_N_go x s)).
Proof.
  revert s. induction (N.lt_wf_0 x) as [x _ IH]; intros s Hs.
  assert (x = 0 ∨ 0 < x)%N as [->|?] by lia.
  - by rewrite pretty_N_go_0.
  - rewrite pretty_N_go_step by done. apply IH; [by apply N.div_lt|].
    simpl. constructor; [apply pretty_N_char_no_comma|done].
Qed.

Lemma format_int_no_comma n :
  Forall (λ c, c ≠ ","%char) (String.list_ascii_of_string (format_int n)).
Proof.
  unfold format_int, pretty, pretty_nat, pretty, pretty_N.
  destruct (decide _); [by repeat constructor|].
  apply pretty_N_go_no_comma. constructor.
Qed.

Lemma list_ascii_length s : length (String.list_ascii_of_string s) = String.length s.
Proof. induction s as [|c s IH]; simpl; [done|]. by rewrite IH. Qed.

(** The three facts on [group3], by induction on the length of the list *)
Lemma group3_facts n ds :
  length ds ≤ n →
  Forall (λ c, c ≠ ","%char) ds →
  filter (λ c, c ≠ ","%char) (group3 ds) = ds ∧
  length (group3 ds) = length ds + (length ds - 1) / 3 ∧
  ∀ k c, group3 ds !! k = Some c → c = ","%char ↔ k `mod` 4 = 3.
Proof.
  revert ds. induction n as [|n IH]; intros ds Hlen Hds.
  { destruct ds; [|simpl in Hlen; lia]. split_and!; [done..|]. by intros k c ?. }
  destruct ds as [|d1 [|d2 [|d3 [|d4 ds]]]].
  - split_and!; [done..|]. by intros k c ?.
  - apply Forall_cons in Hds as [H1 _]. split_and!; [|done|].
    + simpl. rewrite !filter_cons, !decide_True by done. done.
    + intros [|k] c [=]; subst. split; [done|]. by intros ?.
  - apply Forall_cons in Hds as [H1 [H2 _]%Forall_cons]. split_and!; [|done|].
    + simpl. rewrite !filter_cons, !decide_True by done. done.
    + intros [|[|k]] c [=]; subst; (split; [done|]); by intros ?.
  - apply Forall_cons in Hds as [H1 [H2 [H3 _]%Forall_cons]%Forall_cons]. split_and!; [|done|].
    + simpl. rewrite !filter_cons, !decide_True by done. done.
    + intros [|[|[|k]]] c [=]; subst; (split; [done|]); by intros ?.
  - apply Forall_cons in Hds as [H1 [H2 [H3 Hrest]%Forall_cons]%Forall_cons].
    destruct (IH (d4 :: ds)) as (Hstrip & Hlength & Hpos); [simpl in *; lia|done|].
    change (group3 (d1 :: d2 :: d3 :: d4 :: ds))
      with (d1 :: d2 :: d3 :: ","%char :: group3 (d4 :: ds)).
    split_and!.
    + rewrite !filter_cons, !decide_True by done.
      rewrite decide_False by (by intros ?). by rewrite Hstrip.
    + simpl length. simpl length in Hlength. rewrite Hlength.
      replace (S (S (S (S (length ds)))) - 1) with (length ds + 1 * 3) by lia.
      rewrite Nat.div_add by done.
      replace (S (length ds) - 1) with (length ds) by lia. lia.
    + intros [|[|[|[|k]]]] c Hk; simpl in Hk.
      * injection Hk as <-. split; [done|]. by intros ?.
      * injection Hk as <-. split; [done|]. by intros ?.
      * injection Hk as <-. split; [done|]. by intros ?.
      * by injection Hk as <-.
      * replace (S (S (S (S k)))) with (k + 1 * 4) by lia.
        rewrite Nat.Div0.mod_add. by apply Hpos.
Qed.

(** X11.  The count with thousands separators is the decimal numeral of
    the count with commas put in: taking the commas out gives the
    numeral back; counted from the right, every fourth character and no
    other is a comma, and the last group is not followed by one; so two
    counts are written alike only when they are equal. *)
Theorem format_thousands_groups_digits n :
  let cs := String.list_ascii_of_string (format_thousands n) in
  filter (λ c, c ≠ ","%char) cs = String.list_ascii_of_string (format_int n) ∧
  (∀ k c, reverse cs !! k = Some c → c = ","%char ↔ k `mod` 4 = 3) ∧
  String.length (format_thousands n)
    = String.length (format_int n) + (String.length (format_int n) - 1) / 3 ∧
  (∀ m, format_thousands m = format_thousands n → m = n).
Proof.
  intros cs.
  assert (∀ m, String.list_ascii_of_string (format_thousands m)
               = reverse (group3 (reverse (String.list_ascii_of_string (format_int m)))))
    as Hcs.
  { intros m. unfold format_thousands. apply String.list_ascii_of_string_of_list_ascii. }
  assert (∀ m, filter (λ c, c ≠ ","%char) (String.list_ascii_of_string (format_thousands m))
               = String.list_ascii_of_string (format_int m)) as Hstrip.
  { intros m. rewrite Hcs, filter_reverse.
    destruct (group3_facts (length (reverse (String.list_ascii_of_string (format_int m))))
                (reverse (String.list_ascii_of_string (format_int m)))) as (-> & _);
      [done|apply Forall_reverse, format_int_no_comma|].
    apply reverse_involutive. }
  destruct (group3_facts (length (reverse (String.list_ascii_of_string (format_int n))))
              (reverse (String.list_ascii_of_string (format_int n))))
    as (_ & Hlength & Hpos); [done|apply Forall_reverse, format_int_no_comma|].
  split_and!.
  - apply Hstrip.
  - intros k c. unfold cs. rewrite Hcs, reverse_involutive. apply Hpos.
  - rewrite <-!list_ascii_length, Hcs, length_reverse, Hlength. by rewrite length_reverse.
  - intros m Hm. apply (inj pretty).
    rewrite <-(String.string_of_list_ascii_of_string (pretty m)),
            <-(String.string_of_list_ascii_of_string (pretty n)).
    f_equal. change (String.list_ascii_of_string (format_int m)
                     = String.list_ascii_of_string (format_int n)).
    by rewrite <-!Hstrip, Hm.
Qed.

(** ** The prefix *)

(** What a call yields when every line gets [p] in front *)
Definition prefixed (p : string) (o : outcome walked) : outcome walked :=
  match o with
  | Returned (lines, fi) => Returned ((λ line, p +:+ line) <$> lines, fi)
  | Raised e => Raised e
  | RecursionError => RecursionError
  end.

Lemma for_each_prefixed {A} (b1 b0 : A → list FileEntry → outcome walked) p l :
  (∀ x fi, x ∈ l → b1 x fi = prefixed p (b0 x fi)) →
  ∀ fi, for_each b1 l fi = prefixed p (for_each b0 l fi).
Proof.
  induction l as [|x l IH]; intros Hb fi; simpl; [done|].
  rewrite (Hb x fi) by by left. destruct (b0 x fi) as [[a fi1]| |]; simpl; [|done..].
  rewrite IH by (intros y fi0 Hy; apply Hb; by right).
  destruct (for_each b0 l fi1) as [[b fi2]| |]; simpl; [|done..].
  by rewrite fmap_app.
Qed.

Lemma walk_directory_prefixed lower fs ignore_dirs root fuel path prefix is_last fi :
  walk_directory lower fs ignore_dirs root fuel path prefix is_last fi
  = prefixed prefix (walk_directory lower fs ignore_dirs root fuel path "" is_last fi).
Proof.
  revert path prefix is_last fi.
  induction fuel as [|fuel IH]; intros path prefix is_last fi; [done|]. simpl.
  destruct (sorted_items lower fs path) as [items|]; [|done].
  apply for_each_prefixed. intros [i item] fi0 _. unfold loop_body.
  destruct (decide _); [done|].
  destruct (is_file fs item); [by destruct (relative_to item root)|].
  destruct (is_dir fs item); [|done].
  rewrite (IH item (prefix +:+ _)), (IH item ("" +:+ _)).
  destruct (walk_directory lower fs ignore_dirs root fuel item "" _ fi0) as [[sub fi2]| |];
    simpl; [|done..].
  f_equal. f_equal. f_equal. rewrite <-list_fmap_compose. apply list_fmap_ext.
  intros _ line _. simpl. by rewrite string_app_assoc.
Qed.

(** X12.  The prefix is only ever put in front: the lines of a walk
    called with a prefix are the lines of the walk called with the empty
    prefix, each with the prefix in front, and the prefix changes nothing
    else. *)
Theorem prefix_is_put_in_front lower fs ignore_dirs root fuel path prefix is_last
    fi lines fi' :
  walk_directory lower fs ignore_dirs root fuel path prefix is_last fi = Returned (lines, fi') ↔
  ∃ lines0, lines = (λ line, prefix +:+ line) <$> lines0 ∧
    walk_directory lower fs ignore_dirs root fuel path "" is_last fi = Returned (lines0, fi').
Proof.
  rewrite walk_directory_prefixed.
  destruct (walk_directory lower fs ignore_dirs root fuel path "" is_last fi)
    as [[lines0 fi0]| |]; simpl.
  - split.
    + intros [= <- <-]. by exists lines0.
    + intros (lines1 & -> & [= <- <-]). done.
  - split; [done|]. by intros (? & _ & ?).
  - split; [done|]. by intros (? & _ & ?).
Qed.

(** ** A root that cannot be listed *)


(** A root that cannot be listed *)
Definition unlistable_fs : FS := fs_of_tree (TDir None).


(** In one that can be neither listed nor written to: [open] raises. *)
Example unlistable_unwritable_root :
  run_main ascii_lower unlistable_fs 1 false (λ _, true)
  = Traceback UncaughtOSError [ "Генерация tree-структуры...";
                                "Сортировка файлов по размеру...";
                                "Запись в файл..." ].
Proof. by vm_compute. Qed.

(** On 1100 directories nested in one another the run ends in the walk,
    before anything is written. *)
Example deep_tree_run :
  run_main ascii_lower deep_fs 1000 true (λ _, true)
  = Traceback UncaughtRecursionError [ "Генерация tree-структуры..." ].
Proof. by vm_compute. Qed.

(** ** The ranking and the tree *)

(** X14.  Every file of the ranking is drawn in the tree: for each entry
    [get_tree_structure] returns there is a line of the tree that ends
    with the name of the file and the same count, and the first
    component of the entry is the text of the path of that file. *)
Theorem ranked_files_are_drawn lower fs fuel root ignore_dirs tree_lines file_info e :
  get_tree_structure lower fs fuel root ignore_dirs = Returned (tree_lines, file_info) →
  e ∈ file_info →
  ∃ item pre tee,
    e.1.1 = str item ∧ e.1.2 = count_chars fs item ∧
    (pre +:+ tee +:+ name item +:+ " (" +:+ format_thousands e.1.2 +:+ ")") ∈ tree_lines.
Proof.
  unfold get_tree_structure. intros Hwalk He.
  pose proof (walk_directory_sound _ _ _ _ _ _ _ _ _ _ _ Hwalk) as (new & Hnew & Hentries & _).
  simpl in Hnew. subst new. rewrite Forall_forall in Hentries.
  destruct (Hentries e He) as (item & rel & Hv & Hk & _ & ->).
  destruct (walk_directory_complete _ _ _ _ _ _ _ _ _ _ _ _ Hwalk Hv) as [Hfile _].
  destruct (Hfile Hk) as (_ & pre & tee & _ & _ & Hline).
  by exists item, pre, tee.
Qed.

Lemma ranked_files_are_drawn_witness :
  ∃ item pre tee,
    "Src/main.py" = str item ∧
    (pre +:+ tee +:+ name item +:+ " (" +:+ format_thousands 1234 +:+ ")") ∈ ex1_lines.
Proof.
  destruct (ranked_files_are_drawn ascii_lower ex1_fs 4 cwd None ex1_lines ex1_file_info
              ("Src/main.py", 1234, "Src/main.py") eq_refl) as (item & pre & tee & H1 & _ & H3).
  { by left. }
  by exists item, pre, tee.
Defined.

(** ** The recursion limit and the ignored names *)


